(** * Ephemeral object store: metadata store, placement and expiry

    A shallow embedding of [src/app.py]: the JSON metadata store
    ([FileDatabase]), the least-loaded placement policy
    ([select_storage_path]), the expiry sweep ([cleanup_expired_files])
    and the four request handlers ([upload_file], [download_file],
    [get_file_info], [delete_file]).

    Modelling conventions.
    - A [datetime] is the number of microseconds since [datetime.min]
      (0001-01-01T00:00:00), an integer between [0] and [DATETIME_MAX]
      ([since_min]).  The metadata file stores [isoformat()] strings, which
      [fromisoformat] reads back; comparing two such strings, as
      [get_expired_files] does, is comparing the instants they denote
      ([isoformat_order]), so the string comparison of the sweep and the
      [datetime] comparisons of the handlers are both comparisons of these
      integers.
    - A Python [dict] whose iteration order is observed ([db["files"]],
      the [counts] of the placement policy) is an insertion-ordered
      association list; a dict that is only looked up and updated
      ([db["stats"]]) is a [gmap], as is the file namespace of the volumes.
    - What the environment decides is an explicit input of each handler:
      the readings of [datetime.utcnow()], the value of [uuid.uuid4()], and
      for every operating-system call whether it raises [OSError].
    - Uploaded bytes are represented by their lengths: a request body is the
      list of the lengths of the [bytes] objects that the successive
      [await file.read(CHUNK_SIZE)] return, and a stored file is its size.
    - Every handler runs as one atomic transition of the [world]. *)

From Stdlib Require Import ZArith NArith QArith Strings.String Strings.Ascii List.
From stdpp Require Import gmap strings list fin_maps.

Local Open Scope string_scope.
Local Open Scope list_scope.
Local Open Scope Z_scope.

(** ** Configuration (lines 11-16) *)

Definition STORAGE_PATHS : list string := ["/storage"; "/storage2"; "/storage3"].
Definition MAX_FILE_SIZE : N := 5 * 1024 * 1024 * 1024.
Definition DEFAULT_EXPIRY : Z := 24 * 60 * 60.
Definition CHUNK_SIZE : N := 8192.

(** ** Insertion-ordered dictionaries

    [d[k] = v] keeps the position of an existing key and appends a new one;
    [del d[k]] removes the entry; [d.items()] is the list itself. *)

Section PyDict.
Context {V : Type}.

Fixpoint dict_get (d : list (string * V)) (k : string) : option V :=
  match d with
  | [] => None
  | (k', v) :: r => if decide (k' = k) then Some v else dict_get r k
  end.

Fixpoint dict_set (d : list (string * V)) (k : string) (v : V) : list (string * V) :=
  match d with
  | [] => [(k, v)]
  | (k', v') :: r =>
      if decide (k' = k) then (k, v) :: r else (k', v') :: dict_set r k v
  end.

Fixpoint dict_del (d : list (string * V)) (k : string) : list (string * V) :=
  match d with
  | [] => []
  | (k', v') :: r =>
      if decide (k' = k) then r else (k', v') :: dict_del r k
  end.

Definition dict_keys (d : list (string * V)) : list string := map fst d.
End PyDict.

(** ** Time *)

(** [datetime.max], 9999-12-31T23:59:59.999999, in microseconds since
    [datetime.min]: [date.max.toordinal() = 3652059]. *)
Definition DATETIME_MAX : Z := 3652059 * 86400 * 1000000 - 1.

(** [t + timedelta(seconds=s)]: [None] stands for the [OverflowError] that
    Python raises when the [timedelta] or the resulting [datetime] is out of
    range (a [timedelta] out of range always takes the sum out of range). *)
Definition datetime_add_seconds (t s : Z) : option Z :=
  let r := t + s * 1000000 in
  if decide (0 ≤ r ≤ DATETIME_MAX) then Some r else None.

(** ** Timestamps as Python holds and stores them

    The handlers hold [datetime] objects and the store holds their
    [isoformat()] strings; the embedding works with [since_min], the
    position of the instant on the microsecond axis.  [isoformat_order]
    below shows that comparing two stored strings, as line 70 does, is
    comparing these positions, and [since_min_range] that the positions lie
    between [0] and [DATETIME_MAX]. *)

(** A [datetime], field by field. *)
Record datetime := DateTime {
  year : Z; month : Z; day : Z;
  hour : Z; minute : Z; second : Z; microsecond : Z
}.

Definition is_leap (y : Z) : bool :=
  bool_decide (y mod 4 = 0) && (negb (bool_decide (y mod 100 = 0)) || bool_decide (y mod 400 = 0)).

Definition days_in_month (y m : Z) : Z :=
  if decide (m = 2) then (if is_leap y then 29 else 28)
  else if decide (m = 4 ∨ m = 6 ∨ m = 9 ∨ m = 11) then 30 else 31.

(** [_days_before_year] and [_days_before_month] of the datetime module. *)
Definition days_before_year (y : Z) : Z :=
  let y := y - 1 in y * 365 + y / 4 - y / 100 + y / 400.

Definition DAYS_BEFORE_MONTH : list Z :=
  [0; 0; 31; 59; 90; 120; 151; 181; 212; 243; 273; 304; 334].

Definition days_before_month (y m : Z) : Z :=
  nth (Z.to_nat m) DAYS_BEFORE_MONTH 0 + (if decide (2 < m) then (if is_leap y then 1 else 0) else 0).

Definition toordinal (t : datetime) : Z :=
  days_before_year (year t) + days_before_month (year t) (month t) + day t.

Definition valid_datetime (t : datetime) : Prop :=
  1 ≤ year t ≤ 9999 ∧ 1 ≤ month t ≤ 12 ∧
  1 ≤ day t ≤ days_in_month (year t) (month t) ∧
  0 ≤ hour t < 24 ∧ 0 ≤ minute t < 60 ∧ 0 ≤ second t < 60 ∧
  0 ≤ microsecond t < 1000000.

(** The microseconds from [datetime.min] to [t]. *)
Definition since_min (t : datetime) : Z :=
  (((toordinal t - 1) * 24 + hour t) * 60 + minute t) * 60 * 1000000
  + second t * 1000000 + microsecond t.

Definition digit (d : Z) : ascii := ascii_of_N (Z.to_N (48 + d)).

(** ["%0kd" % n] for [0 <= n < 10**k]. *)
Fixpoint zero_padded (k : nat) (n : Z) : string :=
  match k with
  | O => ""
  | S k' => String (digit (n / 10 ^ Z.of_nat k')) (zero_padded k' (n mod 10 ^ Z.of_nat k'))
  end.

(** [t.isoformat()] *)
Definition isoformat (t : datetime) : string :=
  (zero_padded 4 (year t) ++ "-" ++ zero_padded 2 (month t) ++ "-" ++
   zero_padded 2 (day t) ++ "T" ++ zero_padded 2 (hour t) ++ ":" ++
   zero_padded 2 (minute t) ++ ":" ++ zero_padded 2 (second t) ++
   (if decide (microsecond t = 0) then ""
    else "." ++ zero_padded 6 (microsecond t)))%string.

(** Lexicographic combination of two comparisons. *)
Definition lexico (c1 c2 : comparison) : comparison :=
  match c1 with Eq => c2 | _ => c1 end.

(** Chronological order, field by field. *)
Definition datetime_compare (a b : datetime) : comparison :=
  lexico (year a ?= year b) (lexico (month a ?= month b) (lexico (day a ?= day b)
    (lexico (hour a ?= hour b) (lexico (minute a ?= minute b)
      (lexico (second a ?= second b) (microsecond a ?= microsecond b)))))).

(** ** The metadata store (class [FileDatabase], lines 18-74) *)

(** The value stored under [db["files"][file_id]] (lines 143-151). *)
Record file_data := FileData {
  fd_id : string;
  fd_original_name : option string;
  fd_size : N;
  fd_content_type : option string;
  fd_storage_path : string;
  fd_expires_at : Z;
  fd_uploaded_at : Z
}.

(** The content of [file_db.json]. *)
Record database := Database {
  files : list (string * file_data);
  stats : gmap string Z
}.

(** [_ensure_db_exists] *)
Definition empty_db : database := {| files := []; stats := ∅ |}.

(** [stats.get(path, 0)] *)
Definition stats_get (st : gmap string Z) (path : string) : Z :=
  default 0 (st !! path).

Definition add_file (d : database) (file_id : string) (data : file_data) : database :=
  let storage_path := fd_storage_path data in
  {| files := dict_set (files d) file_id data;
     stats := <[storage_path := stats_get (stats d) storage_path + 1]> (stats d) |}.

(** [None] is Python's [None]; a record has seven keys, so it is never
    falsy in the tests [if not file_data] and [if file_data]. *)
Definition get_file (d : database) (file_id : string) : option file_data :=
  dict_get (files d) file_id.

Definition delete_file (d : database) (file_id : string) : bool * database :=
  match dict_get (files d) file_id with
  | Some data =>
      let storage_path := fd_storage_path data in
      let stats' :=
        match stats d !! storage_path with
        | Some n =>
            if decide (n - 1 ≤ 0) then delete storage_path (stats d)
            else <[storage_path := n - 1]> (stats d)
        | None => stats d
        end in
      (true, {| files := dict_del (files d) file_id; stats := stats' |})
  | None => (false, d)
  end.

(** [data["expires_at"] < now] for each item, in the order of the dict:
    a comparison of two [isoformat()] strings, which is the comparison of
    the instants ([isoformat_order]). *)
Definition is_expired (now : Z) (data : file_data) : bool :=
  bool_decide (fd_expires_at data < now).

Definition get_expired_files (d : database) (now : Z) : list string :=
  map fst (List.filter (λ kv, is_expired now kv.2) (files d)).

Definition get_storage_stats (d : database) : gmap string Z := stats d.

(** ** Placement (lines 84-88) *)

(** [min(items, key=lambda x: x[1])]: the first item of least count. *)
Fixpoint min_by_count (best : string * Z) (rest : list (string * Z)) : string * Z :=
  match rest with
  | [] => best
  | x :: r => if decide (x.2 < best.2) then min_by_count x r else min_by_count best r
  end.

Definition py_min (items : list (string * Z)) : option (string * Z) :=
  match items with
  | [] => None
  | x :: r => Some (min_by_count x r)
  end.

(** [{path: stats.get(path, 0) for path in paths}] *)
Definition counts_of (paths : list string) (st : gmap string Z) : list (string * Z) :=
  foldl (λ counts path, dict_set counts path (stats_get st path)) [] paths.

(** [None] is the [ValueError] of [min] on an empty sequence. *)
Definition select_storage_path_from (paths : list string) (d : database) : option string :=
  fst <$> py_min (counts_of paths (get_storage_stats d)).

Definition select_storage_path (d : database) : option string :=
  select_storage_path_from STORAGE_PATHS d.

(** ** The volumes *)

(** [Some msg]: the call raises [OSError(msg)]. *)
Definition os_fault := option string.

Definition starts_with_slash (s : string) : bool :=
  match s with
  | String c _ => bool_decide (c = "/"%char)
  | EmptyString => false
  end.

Fixpoint ends_with_slash (s : string) : bool :=
  match s with
  | EmptyString => false
  | String c EmptyString => bool_decide (c = "/"%char)
  | String _ r => ends_with_slash r
  end.

(** [os.path.join(a, b)] (posixpath) *)
Definition os_path_join (a b : string) : string :=
  if starts_with_slash b then b
  else if bool_decide (a = "") || ends_with_slash a then (a ++ b)%string
  else (a ++ "/" ++ b)%string.

(** [open(path, "wb")]: creates or truncates. *)
Definition os_open_wb (fault : os_fault) (path : string) (disk : gmap string N)
  : string + gmap string N :=
  match fault with
  | Some msg => inl msg
  | None => inr (<[path := 0%N]> disk)
  end.

(** [f.write(chunk)] on the open file.  Writes go through to the volume:
    closing the file afterwards does not fail. *)
Definition os_write (fault : os_fault) (path : string) (len : N) (disk : gmap string N)
  : string + gmap string N :=
  match fault with
  | Some msg => inl msg
  | None => inr (alter (λ sz, (sz + len)%N) path disk)
  end.

(** [os.remove(path)]: fails on a missing file, and whenever the system
    refuses. *)
Definition os_remove (fault : os_fault) (path : string) (disk : gmap string N)
  : string + gmap string N :=
  match fault with
  | Some msg => inl msg
  | None =>
      match disk !! path with
      | Some _ => inr (delete path disk)
      | None => inl "[Errno 2] No such file or directory"
      end
  end.

Definition os_path_exists (path : string) (disk : gmap string N) : bool :=
  bool_decide (is_Some (disk !! path)).

(** ** Handlers *)

Record world := World {
  db : database;
  disk : gmap string N
}.

Record HTTPException := HTTPError {
  status_code : Z;
  detail : string
}.

Inductive outcome (A : Type) : Type :=
| Return (a : A)
| Raise (e : HTTPException).
Arguments Return {A} a.
Arguments Raise {A} e.

Definition too_large_declared : HTTPException :=
  HTTPError 413 "File too large. Max size is 5368709120 bytes".
Definition too_large_streamed : HTTPException :=
  HTTPError 413 "File too large (max 5GB)".
Definition storage_error (msg : string) : HTTPException :=
  HTTPError 500 ("Storage error: " ++ msg)%string.
Definition not_found : HTTPException := HTTPError 404 "File not found".
Definition not_found_in_storage : HTTPException :=
  HTTPError 404 "File not found in storage".
Definition gone : HTTPException := HTTPError 410 "File has expired".
(** An exception no handler catches. *)
Definition internal_error : HTTPException := HTTPError 500 "Internal Server Error".

(** The [UploadFile] of a request. *)
Record UploadFile := {
  filename : option string;
  uf_content_type : option string;
  uf_size : option N;
  body : list N
}.

(** What the environment supplies to one [upload_file]. *)
Record upload_env := {
  uuid4 : string;
  utcnow_121 : Z;
  utcnow_150 : Z;
  open_fault : os_fault;
  write_fault : nat → os_fault;
  remove_fault : os_fault
}.

Inductive save_exit :=
| Saved (file_size : N)
| TooLarge
| IOError (msg : string).

(** The [while chunk := await file.read(CHUNK_SIZE)] loop (lines 127-135);
    [k] counts the writes made so far. *)
Fixpoint save_chunks (env : upload_env) (file_path : string) (chunks : list N)
    (k : nat) (file_size : N) (dsk : gmap string N) : save_exit * gmap string N :=
  match chunks with
  | [] => (Saved file_size, dsk)
  | chunk :: rest =>
      if decide (chunk = 0%N) then (Saved file_size, dsk)
      else
        let file_size := (file_size + chunk)%N in
        if decide (MAX_FILE_SIZE < file_size)%N then
          match os_remove (remove_fault env) file_path dsk with
          | inr dsk' => (TooLarge, dsk')
          | inl msg => (IOError msg, dsk)
          end
        else
          match os_write (write_fault env k) file_path chunk dsk with
          | inr dsk' => save_chunks env file_path rest (S k) file_size dsk'
          | inl msg => (IOError msg, dsk)
          end
  end.

Record upload_response := {
  ur_id : string;
  ur_url : string;
  ur_download_url : string;
  ur_info_url : string;
  ur_expires_at : Z;
  ur_size : N;
  ur_max_size : N;
  ur_storage_location : string
}.

(** [file.size and file.size > MAX_FILE_SIZE] *)
Definition declared_too_large (file : UploadFile) : bool :=
  match uf_size file with
  | Some sz => bool_decide (sz ≠ 0%N) && bool_decide (MAX_FILE_SIZE < sz)%N
  | None => false
  end.

Definition upload_file (env : upload_env) (file : UploadFile) (expires_in : Z)
    (w : world) : outcome upload_response * world :=
  if declared_too_large file then (Raise too_large_declared, w)
  else
    match select_storage_path (db w) with
    | None => (Raise internal_error, w)
    | Some storage_path =>
        let file_id := uuid4 env in
        let file_path := os_path_join storage_path file_id in
        match datetime_add_seconds (utcnow_121 env) expires_in with
        | None => (Raise internal_error, w)
        | Some expires_at =>
            match os_open_wb (open_fault env) file_path (disk w) with
            | inl msg => (Raise (storage_error msg), w)
            | inr dsk =>
                match save_chunks env file_path (body file) 0 0%N dsk with
                | (TooLarge, dsk') =>
                    (Raise too_large_streamed, {| db := db w; disk := dsk' |})
                | (IOError msg, dsk') =>
                    (Raise (storage_error msg), {| db := db w; disk := dsk' |})
                | (Saved file_size, dsk') =>
                    let data :=
                      {| fd_id := file_id;
                         fd_original_name := filename file;
                         fd_size := file_size;
                         fd_content_type := uf_content_type file;
                         fd_storage_path := storage_path;
                         fd_expires_at := expires_at;
                         fd_uploaded_at := utcnow_150 env |} in
                    (Return
                       {| ur_id := file_id;
                          ur_url := ("/api/files/" ++ file_id)%string;
                          ur_download_url := ("/api/files/" ++ file_id ++ "/download")%string;
                          ur_info_url := ("/api/files/" ++ file_id ++ "/info")%string;
                          ur_expires_at := expires_at;
                          ur_size := file_size;
                          ur_max_size := MAX_FILE_SIZE;
                          ur_storage_location := storage_path |},
                     {| db := add_file (db w) file_id data; disk := dsk' |})
                end
            end
        end
    end.

(** The [FileResponse] of a download. *)
Record file_response := {
  fr_path : string;
  fr_filename : option string;
  fr_media_type : option string
}.

Definition download_file (now : Z) (file_id : string) (w : world)
  : outcome file_response :=
  match get_file (db w) file_id with
  | None => Raise not_found
  | Some data =>
      if decide (fd_expires_at data < now) then Raise gone
      else
        let file_path := os_path_join (fd_storage_path data) file_id in
        if os_path_exists file_path (disk w) then
          Return {| fr_path := file_path;
                    fr_filename := fd_original_name data;
                    fr_media_type := fd_content_type data |}
        else Raise not_found_in_storage
  end.

(** The body of the info response.  [remaining] is kept in microseconds:
    [total_seconds()] is that integer divided by [10**6], rounded to the
    nearest float, which has the same sign and is zero only for zero. *)
Record file_info := {
  fi_id : string;
  fi_original_name : option string;
  fi_size : N;
  fi_content_type : option string;
  fi_storage_location : string;
  fi_uploaded_at : Z;
  fi_expires_at : Z;
  fi_remaining_microseconds : Z;
  fi_expired : bool
}.

Definition get_file_info (now : Z) (file_id : string) (w : world)
  : outcome file_info :=
  match get_file (db w) file_id with
  | None => Raise not_found
  | Some data =>
      let remaining := fd_expires_at data - now in
      Return {| fi_id := file_id;
                fi_original_name := fd_original_name data;
                fi_size := fd_size data;
                fi_content_type := fd_content_type data;
                fi_storage_location := fd_storage_path data;
                fi_uploaded_at := fd_uploaded_at data;
                fi_expires_at := fd_expires_at data;
                fi_remaining_microseconds := Z.max 0 remaining;
                fi_expired := bool_decide (remaining ≤ 0) |}
  end.

(** [try: os.remove(path) except OSError: pass] *)
Definition remove_quietly (fault : os_fault) (path : string) (dsk : gmap string N)
  : gmap string N :=
  match os_remove fault path dsk with
  | inr dsk' => dsk'
  | inl _ => dsk
  end.

Record delete_response := {
  dr_status : string;
  dr_id : string
}.

(** The handler of [DELETE /api/files/{file_id}] (lines 221-237); the
    method of the store with the same name is [delete_file]. *)
Definition delete_file_handler (fault : os_fault) (file_id : string) (w : world)
  : outcome delete_response * world :=
  match get_file (db w) file_id with
  | None => (Raise not_found, w)
  | Some data =>
      let file_path := os_path_join (fd_storage_path data) file_id in
      let dsk := remove_quietly fault file_path (disk w) in
      (Return {| dr_status := "deleted"; dr_id := file_id |},
       {| db := (delete_file (db w) file_id).2; disk := dsk |})
  end.

(** One iteration of the loop of [cleanup_expired_files]; [faults] tells,
    per path, whether [os.remove] is refused. *)
Definition cleanup_one (faults : string → os_fault) (w : world) (file_id : string)
  : world :=
  match get_file (db w) file_id with
  | Some data =>
      let file_path := os_path_join (fd_storage_path data) file_id in
      let dsk := remove_quietly (faults file_path) file_path (disk w) in
      {| db := (delete_file (db w) file_id).2; disk := dsk |}
  | None => w
  end.

Definition cleanup_expired_files (now : Z) (faults : string → os_fault) (w : world)
  : world :=
  foldl (cleanup_one faults) w (get_expired_files (db w) now).

(** ** Worlds the service can reach *)

(** The number of records of [fl] placed on volume [v]. *)
Definition count_on (v : string) (fl : list (string * file_data)) : Z :=
  Z.of_nat (length (List.filter (λ kv, bool_decide (fd_storage_path kv.2 = v)) fl)).

(** The counters agree with the records. *)
Definition consistent (d : database) : Prop :=
  NoDup (dict_keys (files d)) ∧
  ∀ v, stats_get (stats d) v = count_on v (files d).

Definition initial_world : world := {| db := empty_db; disk := ∅ |}.

(** One request, or one sweep.  [uuid.uuid4()] is a handle that no record
    of the store carries. *)
Inductive step : world → world → Prop :=
| step_upload env file expires_in w :
    get_file (db w) (uuid4 env) = None →
    step w (upload_file env file expires_in w).2
| step_delete fault file_id w :
    step w (delete_file_handler fault file_id w).2
| step_cleanup now faults w :
    step w (cleanup_expired_files now faults w).

Inductive reachable : world → Prop :=
| reachable_initial : reachable initial_world
| reachable_step w w' : reachable w → step w w' → reachable w'.

(** The record that a successful upload persists. *)
Definition new_record (env : upload_env) (file : UploadFile)
    (storage_path : string) (expires_at : Z) (file_size : N) : file_data :=
  {| fd_id := uuid4 env;
     fd_original_name := filename file;
     fd_size := file_size;
     fd_content_type := uf_content_type file;
     fd_storage_path := storage_path;
     fd_expires_at := expires_at;
     fd_uploaded_at := utcnow_150 env |}.

(** The bytes that the loop of [upload_file] reads: the chunks up to the
    first empty one. *)
Fixpoint streamed_length (chunks : list N) : N :=
  match chunks with
  | [] => 0
  | chunk :: rest =>
      if decide (chunk = 0%N) then 0%N else (chunk + streamed_length rest)%N
  end.

(** ** Sequences of placements

    [placed paths d vols d']: records are added to [d] one after the other,
    each on the volume that the policy selects at that moment; [vols] lists
    the volumes chosen and [d'] is the store at the end. *)
Inductive placed (paths : list string) : database → list string → database → Prop :=
| placed_nil d : placed paths d [] d
| placed_cons d file_id data vols d' :
    select_storage_path_from paths d = Some (fd_storage_path data) →
    placed paths (add_file d file_id data) vols d' →
    placed paths d (fd_storage_path data :: vols) d'.

(** The first [k] volumes of [paths] hold one object each, the others none. *)
Definition filled (paths : list string) (k : nat) (st : gmap string Z) : Prop :=
  ∀ i q, paths !! i = Some q → stats_get st q = if decide (i < k)%nat then 1 else 0.

(** ** Statistics (lines 239-271) *)

(** What [os.statvfs(path)] returns, as far as [get_stats] reads it. *)
Record statvfs_result := {
  f_frsize : N;
  f_blocks : N;
  f_bfree : N
}.

(** One item of the ["storage"] list.  [used_percent] is kept as the exact
    quotient; the float of the response is its rounding. *)
Inductive storage_info :=
| VolumeUsage (path : string) (files_on : Z)
    (total_bytes used_bytes free_bytes : Z) (used_percent : Q)
| VolumeError (path : string) (error : string).

(** [sum(stats.values())] *)
Definition sum_values (st : gmap string Z) : Z :=
  map_fold (λ _ n acc, acc + n) 0 st.

(** The body of the loop over [STORAGE_PATHS]; [statvfs path = None] is the
    [OSError] of [os.statvfs]. *)
Definition storage_info_of (statvfs : string → option statvfs_result)
    (st : gmap string Z) (path : string) : storage_info :=
  match statvfs path with
  | Some usage =>
      let total := Z.of_N (f_frsize usage * f_blocks usage) in
      let free := Z.of_N (f_frsize usage * f_bfree usage) in
      let used := total - free in
      VolumeUsage path (stats_get st path) total used free
        (if decide (0 < total) then (inject_Z used / inject_Z total * 100)%Q else 0%Q)
  | None => VolumeError path "Storage path not accessible"
  end.

Record stats_response := {
  sr_total_files : Z;
  sr_storage : list storage_info;
  sr_max_file_size : N;
  sr_default_expiry : Z
}.

Definition get_stats (statvfs : string → option statvfs_result) (w : world)
  : stats_response :=
  let st := get_storage_stats (db w) in
  {| sr_total_files := sum_values st;
     sr_storage := map (storage_info_of statvfs st) STORAGE_PATHS;
     sr_max_file_size := MAX_FILE_SIZE;
     sr_default_expiry := DEFAULT_EXPIRY |}.

Definition storage_info_path (item : storage_info) : string :=
  match item with
  | VolumeUsage path _ _ _ _ _ => path
  | VolumeError path _ => path
  end.

(** ** Worlds reached with handles that are names

    [str(uuid.uuid4())] is made of hexadecimal digits and dashes; what the
    volumes need of it is that it does not begin with a slash, so that
    [os.path.join] puts the file inside the volume. *)
Inductive reachable_with_names : world → Prop :=
| with_names_initial : reachable_with_names initial_world
| with_names_upload env file expires_in w :
    reachable_with_names w →
    get_file (db w) (uuid4 env) = None →
    starts_with_slash (uuid4 env) = false →
    reachable_with_names (upload_file env file expires_in w).2
| with_names_delete fault file_id w :
    reachable_with_names w →
    reachable_with_names (delete_file_handler fault file_id w).2
| with_names_cleanup now faults w :
    reachable_with_names w →
    reachable_with_names (cleanup_expired_files now faults w).

(** What every record of a store says. *)
Definition records_sound (d : database) : Prop :=
  ∀ file_id data, get_file d file_id = Some data →
    fd_id data = file_id ∧
    fd_storage_path data ∈ STORAGE_PATHS ∧
    (fd_size data ≤ MAX_FILE_SIZE)%N ∧
    0 ≤ fd_expires_at data ≤ DATETIME_MAX.

(** The counters present are those of configured volumes that hold
    something. *)
Definition counters_positive (d : database) : Prop :=
  ∀ v n, stats d !! v = Some n → 1 ≤ n ∧ v ∈ STORAGE_PATHS.

(** The store as the handlers keep it: counters that agree with the
    records and add up to their number, and sound records. *)
Definition store_kept (d : database) : Prop :=
  consistent d ∧ records_sound d ∧ counters_positive d ∧
  sum_values (stats d) = Z.of_nat (length (files d)).

(** Every record has its file, of the recorded size, in its volume. *)
Definition records_stored (w : world) : Prop :=
  ∀ file_id data, get_file (db w) file_id = Some data →
    starts_with_slash file_id = false ∧
    disk w !! os_path_join (fd_storage_path data) file_id = Some (fd_size data).

(** No configured volume holds two objects more than another. *)
Definition balanced (st : gmap string Z) : Prop :=
  ∀ p q, p ∈ STORAGE_PATHS → q ∈ STORAGE_PATHS → stats_get st p ≤ stats_get st q + 1.

(** ** Sample requests *)

(** Instants of 9 and 10 March 2024. *)
Definition at_07_05_00 : Z := since_min (DateTime 2024 3 9 7 5 0 0).
Definition at_07_05_02 : Z := since_min (DateTime 2024 3 9 7 5 2 500000).
Definition at_08_00_00 : Z := since_min (DateTime 2024 3 9 8 0 0 0).
Definition at_08_00_01 : Z := since_min (DateTime 2024 3 9 8 0 1 0).
Definition at_08_01_00 : Z := since_min (DateTime 2024 3 9 8 1 0 0).
Definition at_08_30_00 : Z := since_min (DateTime 2024 3 9 8 30 0 0).
Definition at_09_00_00 : Z := since_min (DateTime 2024 3 9 9 0 0 0).
Definition at_10_00_00 : Z := since_min (DateTime 2024 3 9 10 0 0 0).
Definition at_10_00_01 : Z := since_min (DateTime 2024 3 9 10 0 1 0).
Definition at_12_00_00 : Z := since_min (DateTime 2024 3 9 12 0 0 0).
Definition next_day_07_05_00 : Z := since_min (DateTime 2024 3 10 7 5 0 0).
Definition next_day_07_05_02 : Z := since_min (DateTime 2024 3 10 7 5 2 500000).

Definition no_faults (handle : string) (t1 t2 : Z) : upload_env :=
  {| uuid4 := handle; utcnow_121 := t1; utcnow_150 := t2;
     open_fault := None; write_fault := λ _, None; remove_fault := None |}.

Definition report_txt : UploadFile :=
  {| filename := Some "report.txt"; uf_content_type := Some "text/plain";
     uf_size := Some 8202%N; body := [8192%N; 10%N] |}.

(** The first upload starts at 07:05:00, is saved two and a half seconds
    later and is kept for the default 24 hours; the second starts at
    08:00:00, is saved a second later and is kept for one hour. *)
Definition first_upload : upload_env := no_faults "f-0001" at_07_05_00 at_07_05_02.
Definition second_upload : upload_env := no_faults "f-0002" at_08_00_00 at_08_00_01.
Definition third_upload : upload_env := no_faults "f-0003" at_10_00_00 at_10_00_01.

Definition world_1 : world :=
  (upload_file first_upload report_txt DEFAULT_EXPIRY initial_world).2.
Definition world_2 : world :=
  (upload_file second_upload report_txt 3600 world_1).2.

(** The record of the second upload. *)
Definition second_record : file_data :=
  new_record second_upload report_txt "/storage2" at_09_00_00 8202.

(** The response to the second upload. *)
Definition second_response : upload_response :=
  {| ur_id := "f-0002";
     ur_url := "/api/files/f-0002";
     ur_download_url := "/api/files/f-0002/download";
     ur_info_url := "/api/files/f-0002/info";
     ur_expires_at := at_09_00_00;
     ur_size := 8202;
     ur_max_size := MAX_FILE_SIZE;
     ur_storage_location := "/storage2" |}.

(** The system examines every volume but ["/storage2"], and finds a
    quarter of the blocks free. *)
Definition sample_statvfs (path : string) : option statvfs_result :=
  if decide (path = "/storage2") then None
  else Some {| f_frsize := 4096; f_blocks := 1000000; f_bfree := 250000 |}.

(** Two instants of 9 March 2024, as [datetime] objects. *)
Definition nine_sharp : datetime := DateTime 2024 3 9 9 0 0 0.
Definition half_past_noon : datetime := DateTime 2024 3 9 12 30 15 250000.

(** An upload of 655361 chunks of [CHUNK_SIZE] bytes, one chunk more than
    [MAX_FILE_SIZE], that declares no size. *)
Definition oversized : UploadFile :=
  {| filename := Some "big.bin"; uf_content_type := None; uf_size := None;
     body := repeat CHUNK_SIZE (N.to_nat 655361) |}.

(** The volume runs full at the second write. *)
Definition disk_full_at_second_write : upload_env :=
  {| uuid4 := "f-0002"; utcnow_121 := at_08_00_00; utcnow_150 := at_08_00_01;
     open_fault := None;
     write_fault := λ k, if decide (k = 1%nat)
                         then Some "[Errno 28] No space left on device" else None;
     remove_fault := None |}.

Definition two_chunks : UploadFile :=
  {| filename := Some "data.bin"; uf_content_type := None;
     uf_size := Some 16384%N; body := [8192%N; 8192%N] |}.

(** The system refuses every [os.remove]. *)
Definition refused : os_fault := Some "[Errno 13] Permission denied".

(** An upload like the second, during which the system refuses
    [os.remove]. *)
Definition unlink_refused : upload_env :=
  {| uuid4 := "f-0002"; utcnow_121 := at_08_00_00; utcnow_150 := at_08_00_01;
     open_fault := None; write_fault := λ _, None; remove_fault := refused |}.

(** * Properties *)

(** ** Stored timestamps *)

Lemma compare_lexico (x x' f f' : Z) (c : comparison) :
  (x < x' → f < f') → (x' < x → f' < f) → (x = x' → (f ?= f') = c) →
  (f ?= f') = lexico (x ?= x') c.
Proof.
  intros Hlt Hgt Heq. destruct (Z.compare_spec x x') as [Hx|Hx|Hx]; simpl.
  - by apply Heq.
  - by apply Z.compare_lt_iff, Hlt.
  - by apply Z.compare_gt_iff, Hgt.
Qed.

Lemma digit_compare a b :
  0 ≤ a < 10 → 0 ≤ b < 10 → Ascii.compare (digit a) (digit b) = (a ?= b).
Proof.
  intros Ha Hb. unfold Ascii.compare, digit.
  rewrite !N_ascii_embedding by lia.
  rewrite Z2N.inj_compare by lia. apply Z.add_compare_mono_l.
Qed.

Lemma append_String c s t : (String c s ++ t)%string = String c (s ++ t).
Proof. reflexivity. Qed.

Lemma append_empty_l s : ("" ++ s)%string = s.
Proof. reflexivity. Qed.

Lemma append_empty_r s : (s ++ "")%string = s.
Proof. induction s as [|c s IH]; [done|]. by rewrite append_String, IH. Qed.

Lemma zero_padded_compare k : ∀ n m s t,
  0 ≤ n < 10 ^ Z.of_nat k → 0 ≤ m < 10 ^ Z.of_nat k →
  String.compare (zero_padded k n ++ s) (zero_padded k m ++ t) =
  lexico (n ?= m) (String.compare s t).
Proof.
  induction k as [|k IH]; intros n m s t Hn Hm.
  - simpl in *. assert (n = 0) as -> by lia. assert (m = 0) as -> by lia. done.
  - rewrite Nat2Z.inj_succ, Z.pow_succ_r in Hn, Hm by lia.
    cbn [zero_padded]. rewrite !append_String. cbn [String.compare].
    set (p := 10 ^ Z.of_nat k) in *.
    assert (0 < p) as Hp by (apply Z.pow_pos_nonneg; lia).
    pose proof (Z.div_mod n p ltac:(lia)) as Hdn.
    pose proof (Z.div_mod m p ltac:(lia)) as Hdm.
    pose proof (Z.mod_pos_bound n p Hp) as Hrn.
    pose proof (Z.mod_pos_bound m p Hp) as Hrm.
    assert (0 ≤ n / p < 10) as Hqn.
    { split; [apply Z.div_pos; lia | apply Z.div_lt_upper_bound; lia]. }
    assert (0 ≤ m / p < 10) as Hqm.
    { split; [apply Z.div_pos; lia | apply Z.div_lt_upper_bound; lia]. }
    rewrite digit_compare by done. rewrite IH by done.
    rewrite (compare_lexico (n / p) (m / p) n m (n mod p ?= m mod p)).
    + by destruct (n / p ?= m / p).
    + intros Hlt. nia.
    + intros Hlt. nia.
    + intros Heq. rewrite Hdn at 1. rewrite Hdm at 1. rewrite Heq.
      apply Z.add_compare_mono_l.
Qed.

Lemma days_in_month_bound y m : 28 ≤ days_in_month y m ≤ 31.
Proof. unfold days_in_month. repeat case_decide; try destruct (is_leap y); lia. Qed.

Lemma fraction_compare ua ub :
  0 ≤ ua < 1000000 → 0 ≤ ub < 1000000 →
  String.compare
    (if decide (ua = 0) then "" else "." ++ zero_padded 6 ua)%string
    (if decide (ub = 0) then "" else "." ++ zero_padded 6 ub)%string
  = (ua ?= ub).
Proof.
  intros Ha Hb. destruct (decide (ua = 0)) as [->|Hna], (decide (ub = 0)) as [->|Hnb].
  - done.
  - symmetry. apply Z.compare_lt_iff. lia.
  - symmetry. apply Z.compare_gt_iff. lia.
  - rewrite !append_String, !append_empty_l. cbn [String.compare].
    change (Ascii.compare "." ".") with Eq. cbv iota.
    rewrite <- (append_empty_r (zero_padded 6 ua)), <- (append_empty_r (zero_padded 6 ub)).
    rewrite zero_padded_compare by (simpl; lia). by destruct (ua ?= ub).
Qed.

(** Comparing the rendered strings is comparing the fields in order. *)
Lemma isoformat_compare a b :
  valid_datetime a → valid_datetime b →
  String.compare (isoformat a) (isoformat b) = datetime_compare a b.
Proof.
  intros (Hy & Hm & Hd & Hh & Hmi & Hs & Hus) (Hy' & Hm' & Hd' & Hh' & Hmi' & Hs' & Hus').
  pose proof (days_in_month_bound (year a) (month a)).
  pose proof (days_in_month_bound (year b) (month b)).
  unfold isoformat, datetime_compare.
  repeat (rewrite zero_padded_compare by (simpl; lia); f_equal;
          rewrite ?append_String, ?append_empty_l; cbn [String.compare];
          try change (Ascii.compare "-" "-") with Eq;
          try change (Ascii.compare "T" "T") with Eq;
          try change (Ascii.compare ":" ":") with Eq; cbv iota).
  by apply fraction_compare.
Qed.

Ltac month_cases m H :=
  let Hm := fresh in
  assert (m = 1 ∨ m = 2 ∨ m = 3 ∨ m = 4 ∨ m = 5 ∨ m = 6 ∨
          m = 7 ∨ m = 8 ∨ m = 9 ∨ m = 10 ∨ m = 11 ∨ m = 12) as Hm by lia;
  clear H; destruct_or! Hm; subst m.

Lemma days_before_year_next y y' :
  1 ≤ y < y' →
  days_before_year y + 365 + (if is_leap y then 1 else 0) ≤ days_before_year y'.
Proof.
  intros Hy. unfold days_before_year, is_leap.
  repeat case_bool_decide; simpl; Z.div_mod_to_equations; lia.
Qed.

Lemma day_of_year_bound y m d :
  1 ≤ m ≤ 12 → 1 ≤ d ≤ days_in_month y m →
  1 ≤ days_before_month y m + d ≤ 365 + (if is_leap y then 1 else 0).
Proof.
  intros Hm. month_cases m Hm; unfold days_in_month, days_before_month; simpl;
    destruct (is_leap y); simpl; lia.
Qed.

Lemma days_before_month_next y m m' :
  1 ≤ m < m' → m' ≤ 12 →
  days_before_month y m + days_in_month y m ≤ days_before_month y m'.
Proof.
  intros Hm Hm'.
  assert (1 ≤ m ≤ 12) as H1 by lia. assert (1 ≤ m' ≤ 12) as H2 by lia.
  month_cases m H1; month_cases m' H2; try lia;
    unfold days_in_month, days_before_month; simpl; destruct (is_leap y); simpl; lia.
Qed.

Lemma toordinal_compare a b :
  valid_datetime a → valid_datetime b →
  (toordinal a ?= toordinal b) =
  lexico (year a ?= year b) (lexico (month a ?= month b) (day a ?= day b)).
Proof.
  intros (Hy & Hm & Hd & _) (Hy' & Hm' & Hd' & _). unfold toordinal.
  pose proof (day_of_year_bound _ _ _ Hm Hd).
  pose proof (day_of_year_bound _ _ _ Hm' Hd').
  apply compare_lexico.
  - intros Hlt. pose proof (days_before_year_next (year a) (year b)). lia.
  - intros Hlt. pose proof (days_before_year_next (year b) (year a)). lia.
  - intros Heq. rewrite Heq in *. rewrite <- !Z.add_assoc, Z.add_compare_mono_l.
    apply compare_lexico.
    + intros Hlt. pose proof (days_before_month_next (year b) (month a) (month b)). lia.
    + intros Hlt. pose proof (days_before_month_next (year b) (month b) (month a)). lia.
    + intros Heq'. rewrite Heq'. apply Z.add_compare_mono_l.
Qed.


Lemma compare_by_difference (f f' r r' : Z) :
  f - f' = r - r' → (f ?= f') = (r ?= r').
Proof.
  intros Hd. destruct (Z.compare_spec r r').
  - apply Z.compare_eq_iff. lia.
  - apply Z.compare_lt_iff. lia.
  - apply Z.compare_gt_iff. lia.
Qed.

Lemma lexico_assoc c1 c2 c3 : lexico (lexico c1 c2) c3 = lexico c1 (lexico c2 c3).
Proof. by destruct c1. Qed.

(** The count of microseconds orders datetimes as their fields do. *)
Lemma since_min_compare a b :
  valid_datetime a → valid_datetime b →
  (since_min a ?= since_min b) = datetime_compare a b.
Proof.
  intros Ha Hb. pose proof (toordinal_compare a b Ha Hb) as Hord.
  destruct Ha as (_ & _ & _ & Hh & Hmi & Hs & Hus).
  destruct Hb as (_ & _ & _ & Hh' & Hmi' & Hs' & Hus').
  unfold datetime_compare, since_min.
  rewrite <- !lexico_assoc. rewrite (lexico_assoc (year a ?= year b)), <- Hord.
  rewrite !lexico_assoc.
  generalize dependent (toordinal b). generalize dependent (toordinal a).
  intros x x' _.
  repeat (apply compare_lexico; [lia | lia | intros ?]).
  apply compare_by_difference. subst. lia.
Qed.

(** Comparing two stored timestamps as strings is comparing the instants
    they denote. *)
Theorem isoformat_order a b :
  valid_datetime a → valid_datetime b →
  String.compare (isoformat a) (isoformat b) = (since_min a ?= since_min b).
Proof. intros Ha Hb. by rewrite isoformat_compare, since_min_compare. Qed.

Lemma since_min_range t :
  valid_datetime t → 0 ≤ since_min t ≤ DATETIME_MAX.
Proof.
  intros (Hy & Hm & Hd & Hh & Hmi & Hs & Hus).
  pose proof (day_of_year_bound _ _ _ Hm Hd) as Hdoy.
  assert (days_before_year (year t) + 365 + (if is_leap (year t) then 1 else 0)
          ≤ days_before_year 10000) as Hnext by (apply days_before_year_next; lia).
  assert (0 ≤ days_before_year (year t)) as Hpos.
  { unfold days_before_year. Z.div_mod_to_equations. lia. }
  change (days_before_year 10000) with 3652059 in Hnext.
  unfold since_min, toordinal, DATETIME_MAX. lia.
Qed.

(** The rendering, and the two ends of the axis. *)
Lemma isoformat_samples :
  isoformat (DateTime 2024 3 9 9 0 0 0) = "2024-03-09T09:00:00" ∧
  isoformat (DateTime 2024 3 9 7 5 2 500000) = "2024-03-09T07:05:02.500000".
Proof. by vm_compute. Qed.

Lemma since_min_ends :
  since_min (DateTime 1 1 1 0 0 0 0) = 0 ∧
  since_min (DateTime 9999 12 31 23 59 59 999999) = DATETIME_MAX.
Proof. by vm_compute. Qed.

(** ** Dictionaries *)

Section PyDictFacts.
Context {V : Type}.
Implicit Types (d : list (string * V)) (k : string) (v : V).

Lemma dict_get_set_eq d k v : dict_get (dict_set d k v) k = Some v.
Proof.
  induction d as [|[k' v'] r IH]; simpl.
  - by rewrite decide_True.
  - case_decide; simpl.
    + by rewrite decide_True.
    + by rewrite decide_False.
Qed.

Lemma dict_get_set_ne d k k' v : k ≠ k' → dict_get (dict_set d k v) k' = dict_get d k'.
Proof.
  intros Hne. induction d as [|[k0 v0] r IH]; simpl.
  - by rewrite decide_False.
  - case_decide; simpl.
    + subst k0. by rewrite !decide_False.
    + by rewrite IH.
Qed.

Lemma dict_get_None d k : dict_get d k = None ↔ k ∉ dict_keys d.
Proof.
  induction d as [|[k' v'] r IH]; simpl.
  - split; [intros _; apply not_elem_of_nil | done].
  - rewrite not_elem_of_cons. case_decide.
    + split; [done | intros [Hne _]; congruence].
    + rewrite IH. split; [intros Hr; split; [congruence | done] | by intros [_ Hr]].
Qed.

Lemma dict_get_Some_elem d k v : dict_get d k = Some v → (k, v) ∈ d.
Proof.
  induction d as [|[k' v'] r IH]; simpl; [done|].
  case_decide.
  - intros [= <-]. subst. apply elem_of_cons; by left.
  - intros H'. apply elem_of_cons; right; auto.
Qed.

Lemma dict_get_elem d k v : NoDup (dict_keys d) → (k, v) ∈ d → dict_get d k = Some v.
Proof.
  induction d as [|[k' v'] r IH]; simpl.
  - intros _ Hin. by apply elem_of_nil in Hin.
  - rewrite NoDup_cons, elem_of_cons. intros [Hk Hnd] [Heq|Hin].
    + injection Heq as -> ->. by rewrite decide_True.
    + rewrite decide_False; [by apply IH|]. intros ->. apply Hk.
      apply list_elem_of_In, in_map_iff. exists (k, v). by rewrite <- list_elem_of_In.
Qed.

Lemma dict_set_fresh d k v : dict_get d k = None → dict_set d k v = d ++ [(k, v)].
Proof.
  induction d as [|[k' v'] r IH]; simpl; [done|].
  case_decide; [done|]. intros H'. by rewrite IH.
Qed.

Lemma dict_keys_del_subseteq d k : dict_keys (dict_del d k) ⊆ dict_keys d.
Proof.
  induction d as [|[k' v'] r IH]; simpl; [done|].
  case_decide; simpl.
  - intros x Hx. apply elem_of_cons. by right.
  - intros x. rewrite !elem_of_cons. intros [->|Hx]; [by left|right; by apply IH].
Qed.

Lemma dict_del_NoDup d k : NoDup (dict_keys d) → NoDup (dict_keys (dict_del d k)).
Proof.
  induction d as [|[k' v'] r IH]; simpl; [done|].
  rewrite NoDup_cons. intros [Hk Hr]. case_decide; [done|].
  simpl. apply NoDup_cons. split; [|auto].
  intros Hin. apply Hk. by apply (dict_keys_del_subseteq r k).
Qed.

Lemma dict_get_del_eq d k : NoDup (dict_keys d) → dict_get (dict_del d k) k = None.
Proof.
  induction d as [|[k' v'] r IH]; simpl; [done|].
  rewrite NoDup_cons. intros [Hk Hr]. case_decide.
  - subst. by apply dict_get_None.
  - simpl. rewrite decide_False; auto.
Qed.

Lemma dict_get_del_ne d k k' : k ≠ k' → dict_get (dict_del d k) k' = dict_get d k'.
Proof.
  intros Hne. induction d as [|[k0 v0] r IH]; simpl; [done|].
  case_decide; simpl.
  + subst k0. by rewrite decide_False.
  + by rewrite IH.
Qed.

Lemma dict_set_fresh_NoDup d k v :
  dict_get d k = None → NoDup (dict_keys d) → NoDup (dict_keys (dict_set d k v)).
Proof.
  intros Hget Hnd. rewrite dict_set_fresh by done.
  unfold dict_keys. rewrite map_app. simpl.
  apply NoDup_app. split_and!; [done| |apply NoDup_singleton].
  intros x Hx Hx'. apply list_elem_of_singleton in Hx'. subst.
  by apply dict_get_None in Hget.
Qed.

(** Deleting an absent key changes nothing. *)
Lemma dict_del_absent d k : dict_get d k = None → dict_del d k = d.
Proof.
  induction d as [|[k' v'] r IH]; simpl; [done|].
  case_decide; [done|]. intros H'. by rewrite IH.
Qed.
End PyDictFacts.

(** ** Counting the records of a volume *)

Lemma count_on_nil v : count_on v [] = 0.
Proof. done. Qed.

Lemma count_on_cons v kv fl :
  count_on v (kv :: fl) =
  (if decide (fd_storage_path kv.2 = v) then 1 else 0) + count_on v fl.
Proof.
  unfold count_on. simpl. case_bool_decide.
  - rewrite decide_True by done. simpl length. lia.
  - rewrite decide_False by done. lia.
Qed.

Lemma count_on_app v fl1 fl2 :
  count_on v (fl1 ++ fl2) = count_on v fl1 + count_on v fl2.
Proof.
  induction fl1 as [|kv fl1 IH]; simpl.
  - rewrite count_on_nil. lia.
  - rewrite !count_on_cons, IH. lia.
Qed.

Lemma count_on_nonneg v fl : 0 ≤ count_on v fl.
Proof. unfold count_on. lia. Qed.

Lemma count_on_del v fl k data :
  dict_get fl k = Some data →
  count_on v (dict_del fl k) =
  count_on v fl - (if decide (fd_storage_path data = v) then 1 else 0).
Proof.
  induction fl as [|[k' d'] r IH]; [done|].
  cbn [dict_get dict_del]. destruct (decide (k' = k)) as [->|Hne].
  - intros [= ->]. rewrite count_on_cons. simpl. lia.
  - intros Hget. rewrite !count_on_cons, IH by done. lia.
Qed.

Lemma count_on_positive fl k data :
  dict_get fl k = Some data → 1 ≤ count_on (fd_storage_path data) fl.
Proof.
  intros Hget. pose proof (count_on_del (fd_storage_path data) fl k data Hget) as Hdel.
  rewrite decide_True in Hdel by done.
  pose proof (count_on_nonneg (fd_storage_path data) (dict_del fl k)). lia.
Qed.

(** ** What the two mutations of the store do *)

Lemma stats_get_insert (st : gmap string Z) p n v :
  stats_get (<[p := n]> st) v = if decide (p = v) then n else stats_get st v.
Proof.
  unfold stats_get. rewrite lookup_insert. by case_decide.
Qed.

Lemma stats_get_delete (st : gmap string Z) p v :
  stats_get (delete p st) v = if decide (p = v) then 0 else stats_get st v.
Proof.
  unfold stats_get. rewrite lookup_delete. by case_decide.
Qed.

Lemma add_file_files d file_id data :
  get_file d file_id = None →
  files (add_file d file_id data) = files d ++ [(file_id, data)].
Proof. intros Hget. simpl. by apply dict_set_fresh. Qed.

Lemma add_file_stats d file_id data v :
  stats_get (stats (add_file d file_id data)) v =
  stats_get (stats d) v + (if decide (fd_storage_path data = v) then 1 else 0).
Proof.
  simpl. rewrite stats_get_insert. case_decide; [subst|]; lia.
Qed.

Lemma add_file_consistent d file_id data :
  consistent d → get_file d file_id = None → consistent (add_file d file_id data).
Proof.
  intros [Hnd Hcnt] Hget. split.
  - simpl. by apply dict_set_fresh_NoDup.
  - intros v. rewrite add_file_stats, add_file_files by done.
    rewrite count_on_app, count_on_cons, count_on_nil, Hcnt. simpl. lia.
Qed.

Lemma delete_file_absent d file_id :
  get_file d file_id = None → delete_file d file_id = (false, d).
Proof. unfold get_file, delete_file. by intros ->. Qed.

Lemma delete_file_files d file_id :
  files (delete_file d file_id).2 = dict_del (files d) file_id.
Proof.
  unfold delete_file. destruct (dict_get (files d) file_id) eqn:Hget; simpl; [done|].
  by rewrite dict_del_absent.
Qed.

(** In a consistent store the counter of the record's volume goes down by
    exactly one, and no other counter moves. *)
Lemma delete_file_stats d file_id data v :
  consistent d → get_file d file_id = Some data →
  stats_get (stats (delete_file d file_id).2) v =
  stats_get (stats d) v - (if decide (fd_storage_path data = v) then 1 else 0).
Proof.
  intros [Hnd Hcnt] Hget. unfold get_file in Hget. unfold delete_file. rewrite Hget. simpl.
  pose proof (count_on_positive _ _ _ Hget) as Hpos. rewrite <- Hcnt in Hpos.
  unfold stats_get in Hpos.
  destruct (stats d !! fd_storage_path data) as [n|] eqn:Hn; simpl in Hpos; [|lia].
  case_decide.
  - rewrite stats_get_delete. case_decide; [|lia].
    subst v. unfold stats_get. rewrite Hn. simpl. lia.
  - rewrite stats_get_insert. case_decide; [|lia].
    subst v. unfold stats_get. rewrite Hn. simpl. lia.
Qed.

Lemma delete_file_consistent d file_id :
  consistent d → consistent (delete_file d file_id).2.
Proof.
  intros Hc. destruct (get_file d file_id) as [data|] eqn:Hget.
  - split.
    + rewrite delete_file_files. apply dict_del_NoDup, Hc.
    + intros v. rewrite (delete_file_stats d file_id data v Hc Hget).
      rewrite delete_file_files. destruct Hc as [_ Hcnt].
      rewrite (count_on_del v _ _ _ Hget), Hcnt. done.
  - by rewrite delete_file_absent.
Qed.

Lemma delete_file_get d file_id :
  NoDup (dict_keys (files d)) → get_file (delete_file d file_id).2 file_id = None.
Proof.
  intros Hnd. unfold get_file. rewrite delete_file_files. by apply dict_get_del_eq.
Qed.

Lemma delete_file_get_ne d file_id file_id' :
  file_id ≠ file_id' →
  get_file (delete_file d file_id).2 file_id' = get_file d file_id'.
Proof.
  intros Hne. unfold get_file. rewrite delete_file_files. by apply dict_get_del_ne.
Qed.

(** ** The store after each handler *)

(** A request that is answered 201 has passed every check, and commits
    exactly one record. *)
Lemma upload_file_created env file expires_in w r w' :
  upload_file env file expires_in w = (Return r, w') →
  ∃ storage_path expires_at dsk file_size,
    declared_too_large file = false ∧
    select_storage_path (db w) = Some storage_path ∧
    datetime_add_seconds (utcnow_121 env) expires_in = Some expires_at ∧
    os_open_wb (open_fault env) (os_path_join storage_path (uuid4 env)) (disk w)
      = inr dsk ∧
    save_chunks env (os_path_join storage_path (uuid4 env)) (body file) 0 0%N dsk
      = (Saved file_size, disk w') ∧
    db w' = add_file (db w) (uuid4 env)
              (new_record env file storage_path expires_at file_size) ∧
    ur_id r = uuid4 env ∧ ur_storage_location r = storage_path ∧
    ur_expires_at r = expires_at ∧ ur_size r = file_size.
Proof.
  unfold upload_file. intros Hup.
  destruct (declared_too_large file); [done|].
  destruct (select_storage_path (db w)) as [sp|]; [|done].
  destruct (datetime_add_seconds _ _) as [ex|]; [|done].
  destruct (os_open_wb _ _ _) as [msg|dsk] eqn:Hopen; [done|].
  destruct (save_chunks _ _ _ _ _ _) as [[sz| |msg] dsk'] eqn:Hsave; [|done..].
  injection Hup as <- <-. exists sp, ex, dsk, sz. by repeat split.
Qed.

(** A request that is refused leaves the store as it was. *)
Lemma upload_file_raised env file expires_in w e w' :
  upload_file env file expires_in w = (Raise e, w') → db w' = db w.
Proof.
  unfold upload_file. intros Hup.
  destruct (declared_too_large file); [by injection Hup as _ <-|].
  destruct (select_storage_path (db w)) as [sp|]; [|by injection Hup as _ <-].
  destruct (datetime_add_seconds _ _) as [ex|]; [|by injection Hup as _ <-].
  destruct (os_open_wb _ _ _) as [msg|dsk]; [by injection Hup as _ <-|].
  destruct (save_chunks _ _ _ _ _ _) as [[sz| |msg] dsk'] eqn:Hsave;
    [done | by injection Hup as _ <- ..].
Qed.

Lemma upload_file_consistent env file expires_in w :
  get_file (db w) (uuid4 env) = None →
  consistent (db w) → consistent (db (upload_file env file expires_in w).2).
Proof.
  intros Hfresh Hc.
  destruct (upload_file env file expires_in w) as [[r|e] w'] eqn:Hup; simpl.
  - apply upload_file_created in Hup as (sp & ex & dsk & sz & _ & _ & _ & _ & _ & -> & _).
    by apply add_file_consistent.
  - apply upload_file_raised in Hup as ->. done.
Qed.

Lemma delete_file_handler_db fault file_id w :
  db (delete_file_handler fault file_id w).2 = (delete_file (db w) file_id).2.
Proof.
  unfold delete_file_handler.
  destruct (get_file (db w) file_id) eqn:Hget; simpl; [done|].
  by rewrite delete_file_absent.
Qed.

Lemma cleanup_one_db faults w file_id :
  db (cleanup_one faults w file_id) = (delete_file (db w) file_id).2.
Proof.
  unfold cleanup_one.
  destruct (get_file (db w) file_id) eqn:Hget; simpl; [done|].
  by rewrite delete_file_absent.
Qed.

Lemma cleanup_loop_consistent faults ids w :
  consistent (db w) → consistent (db (foldl (cleanup_one faults) w ids)).
Proof.
  revert w. induction ids as [|i ids IH]; intros w Hc; simpl; [done|].
  apply IH. rewrite cleanup_one_db. by apply delete_file_consistent.
Qed.

Lemma empty_db_consistent : consistent empty_db.
Proof. split; [constructor | done]. Qed.

Lemma step_consistent w w' : step w w' → consistent (db w) → consistent (db w').
Proof.
  intros [env file expires_in w0 Hfresh | fault file_id w0 | now faults w0] Hc.
  - by apply upload_file_consistent.
  - rewrite delete_file_handler_db. by apply delete_file_consistent.
  - by apply cleanup_loop_consistent.
Qed.

Lemma reachable_consistent w : reachable w → consistent (db w).
Proof.
  induction 1 as [|w w' _ IH Hstep]; [apply empty_db_consistent|].
  by apply (step_consistent w).
Qed.

(** ** Placement *)

Lemma min_by_count_keeps best rest :
  (∀ y, y ∈ rest → best.2 ≤ y.2) → min_by_count best rest = best.
Proof.
  induction rest as [|x r IH]; intros Hle; simpl; [done|].
  rewrite decide_False.
  - apply IH. intros y Hy. apply Hle. by apply elem_of_cons; right.
  - assert (best.2 ≤ x.2) by (apply Hle, elem_of_cons; by left). lia.
Qed.

Lemma min_by_count_skips best l1 x l2 :
  (∀ y, y ∈ best :: l1 → x.2 < y.2) →
  min_by_count best (l1 ++ x :: l2) = min_by_count x l2.
Proof.
  revert best. induction l1 as [|y l1 IH]; intros best Hlt; simpl.
  - rewrite decide_True; [done|]. apply Hlt. by apply elem_of_cons; left.
  - case_decide; apply IH; intros z; rewrite elem_of_cons; intros [->|Hz];
      apply Hlt; rewrite !elem_of_cons; auto.
Qed.

(** [min] returns the first item whose count no other item undercuts. *)
Lemma py_min_first_least l1 x l2 :
  (∀ y, y ∈ l1 → x.2 < y.2) → (∀ y, y ∈ l2 → x.2 ≤ y.2) →
  py_min (l1 ++ x :: l2) = Some x.
Proof.
  intros Hlt Hle. destruct l1 as [|b l1]; simpl.
  - by rewrite min_by_count_keeps.
  - by rewrite min_by_count_skips, min_by_count_keeps.
Qed.

(** Every non-empty list splits around such an item. *)
Lemma min_by_count_split rest : ∀ pre best post,
  (∀ y, y ∈ pre → best.2 < y.2) → (∀ y, y ∈ post → best.2 ≤ y.2) →
  ∃ l1 l2, pre ++ best :: post ++ rest = l1 ++ min_by_count best rest :: l2 ∧
    (∀ y, y ∈ l1 → (min_by_count best rest).2 < y.2) ∧
    (∀ y, y ∈ l2 → (min_by_count best rest).2 ≤ y.2).
Proof.
  induction rest as [|x r IH]; intros pre best post Hpre Hpost; simpl.
  - exists pre, post. by rewrite app_nil_r.
  - case_decide as Hx.
    + destruct (IH (pre ++ best :: post) x []) as (l1 & l2 & Heq & H1 & H2).
      * intros y. rewrite elem_of_app, elem_of_cons. intros [Hy|[->|Hy]].
        -- specialize (Hpre y Hy). lia.
        -- done.
        -- specialize (Hpost y Hy). lia.
      * intros y Hy. by apply elem_of_nil in Hy.
      * exists l1, l2. split; [|done]. rewrite <- Heq. by rewrite <- app_assoc.
    + destruct (IH pre best (post ++ [x])) as (l1 & l2 & Heq & H1 & H2); [done| |].
      * intros y. rewrite elem_of_app, list_elem_of_singleton. intros [Hy| ->]; [auto|lia].
      * exists l1, l2. split; [|done]. rewrite <- Heq. by rewrite <- app_assoc.
Qed.

Lemma counts_of_loop (st : gmap string Z) paths : ∀ acc,
  NoDup paths → (∀ p, p ∈ paths → p ∉ dict_keys acc) →
  foldl (λ counts path, dict_set counts path (stats_get st path)) acc paths =
  acc ++ map (λ p, (p, stats_get st p)) paths.
Proof.
  induction paths as [|p paths IH]; intros acc Hnd Hfresh; simpl.
  - by rewrite app_nil_r.
  - apply NoDup_cons in Hnd as [Hp Hnd].
    assert (dict_get acc p = None) as Hget.
    { apply dict_get_None, Hfresh. by apply elem_of_cons; left. }
    rewrite IH; [| done |].
    + rewrite dict_set_fresh by done. by rewrite <- app_assoc.
    + intros q Hq. rewrite dict_set_fresh by done.
      unfold dict_keys. rewrite map_app. simpl.
      rewrite elem_of_app, list_elem_of_singleton. intros [Hin| ->]; [|done].
      revert Hin. apply Hfresh. by apply elem_of_cons; right.
Qed.

Lemma counts_of_NoDup paths st :
  NoDup paths → counts_of paths st = map (λ p, (p, stats_get st p)) paths.
Proof.
  intros Hnd. unfold counts_of. rewrite counts_of_loop; [done..|].
  intros p _. apply not_elem_of_nil.
Qed.

Lemma elem_of_map_count (st : gmap string Z) y l :
  y ∈ map (λ p, (p, stats_get st p)) l → y.1 ∈ l ∧ y.2 = stats_get st y.1.
Proof.
  rewrite list_elem_of_In, in_map_iff. intros (p & <- & Hp).
  by rewrite list_elem_of_In.
Qed.

(** The policy on any list of distinct volumes: the chosen volume has the
    least counter, and every volume declared before it has a larger one. *)
Lemma select_storage_path_from_spec paths d :
  NoDup paths → paths ≠ [] →
  ∃ before p after, paths = before ++ p :: after ∧
    select_storage_path_from paths d = Some p ∧
    (∀ q, q ∈ before → stats_get (stats d) p < stats_get (stats d) q) ∧
    (∀ q, q ∈ after → stats_get (stats d) p ≤ stats_get (stats d) q).
Proof.
  intros Hnd Hne. unfold select_storage_path_from, get_storage_stats.
  rewrite counts_of_NoDup by done.
  destruct paths as [|p0 rest]; [done|]. simpl.
  set (g := λ p, (p, stats_get (stats d) p)).
  destruct (min_by_count_split (map g rest) [] (g p0) []) as (l1 & l2 & Heq & H1 & H2).
  { intros y Hy. by apply elem_of_nil in Hy. }
  { intros y Hy. by apply elem_of_nil in Hy. }
  simpl in Heq. change (g p0 :: map g rest) with (map g (p0 :: rest)) in Heq.
  apply map_eq_app in Heq as (before & tl & Hpaths & Hbefore & Htl).
  apply map_eq_cons in Htl as (p & after & -> & Hp & Hafter).
  exists before, p, after. split; [done|].
  change (p0, stats_get (stats d) p0) with (g p0). rewrite <- Hp. split; [done|].
  rewrite <- Hp in H1, H2. simpl in H1, H2. split.
  - intros q Hq. apply (H1 (g q)). subst l1.
    apply list_elem_of_In, in_map, list_elem_of_In, Hq.
  - intros q Hq. apply (H2 (g q)). subst l2.
    apply list_elem_of_In, in_map, list_elem_of_In, Hq.
Qed.

(** Conversely, a volume with these two properties is the one chosen. *)
Lemma select_storage_path_from_first_least before p after d :
  NoDup (before ++ p :: after) →
  (∀ q, q ∈ before → stats_get (stats d) p < stats_get (stats d) q) →
  (∀ q, q ∈ after → stats_get (stats d) p ≤ stats_get (stats d) q) →
  select_storage_path_from (before ++ p :: after) d = Some p.
Proof.
  intros Hnd Hlt Hle. unfold select_storage_path_from, get_storage_stats.
  rewrite counts_of_NoDup by done. rewrite map_app. simpl.
  rewrite py_min_first_least; [done| |].
  - intros y Hy. apply elem_of_map_count in Hy as [Hy ->]. simpl. by apply Hlt.
  - intros y Hy. apply elem_of_map_count in Hy as [Hy ->]. simpl. by apply Hle.
Qed.

(** *** Filling the volumes in turn *)

Lemma select_on_filled paths d k p :
  NoDup paths → paths !! k = Some p → filled paths k (stats d) →
  select_storage_path_from paths d = Some p.
Proof.
  intros Hnd Hk Hfill.
  rewrite <- (take_drop_middle paths k p Hk) in Hnd |- *.
  assert (stats_get (stats d) p = 0) as Hp.
  { rewrite (Hfill k p Hk). by rewrite decide_False by lia. }
  apply select_storage_path_from_first_least; [done| |]; intros q Hq; rewrite Hp.
  - apply elem_of_take in Hq as (i & Hi & Hlt).
    rewrite (Hfill i q Hi). by rewrite decide_True.
  - apply list_elem_of_lookup in Hq as (i & Hi). rewrite lookup_drop in Hi.
    rewrite (Hfill _ q Hi). by rewrite decide_False by lia.
Qed.

Lemma filled_add paths k p st :
  NoDup paths → paths !! k = Some p → filled paths k st →
  filled paths (S k) (<[p := stats_get st p + 1]> st).
Proof.
  intros Hnd Hk Hfill i q Hi. rewrite stats_get_insert. case_decide as Hpq.
  - subst q. assert (i = k) as -> by by eapply NoDup_lookup.
    rewrite (Hfill k p Hk), decide_False, decide_True by lia. done.
  - assert (i ≠ k) by (intros ->; congruence).
    rewrite (Hfill i q Hi). repeat case_decide; done || lia.
Qed.

(** Starting with the first [k] volumes holding one object each, records
    placed one after the other go to the following volumes, in the order
    of declaration. *)
Lemma placed_in_turn paths d vols d' :
  NoDup paths → placed paths d vols d' →
  ∀ k, filled paths k (stats d) → (k + length vols ≤ length paths)%nat →
  vols = take (length vols) (drop k paths) ∧
  filled paths (k + length vols) (stats d').
Proof.
  intros Hnd. induction 1 as [d|d file_id data vols d' Hsel Hrest IH];
    intros k Hfill Hlen; simpl in *.
  - by rewrite Nat.add_0_r.
  - destruct (lookup_lt_is_Some_2 paths k) as [p Hk]; [lia|].
    assert (fd_storage_path data = p) as Hp.
    { pose proof (select_on_filled paths d k p Hnd Hk Hfill). congruence. }
    destruct (IH (S k)) as [Hvols Hfill'].
    + rewrite Hp. by apply filled_add.
    + lia.
    + rewrite Nat.add_succ_r. split; [|done].
      rewrite (drop_S paths p k Hk). simpl. by rewrite Hp, <- Hvols.
Qed.

(** With as many placements as volumes, all at zero: one on each. *)
Lemma placed_one_on_each paths d vols d' :
  NoDup paths → placed paths d vols d' → length vols = length paths →
  (∀ p, p ∈ paths → stats_get (stats d) p = 0) →
  vols = paths ∧ ∀ p, p ∈ paths → stats_get (stats d') p = 1.
Proof.
  intros Hnd Hplaced Hlen Hzero.
  destruct (placed_in_turn paths d vols d' Hnd Hplaced 0%nat) as [Hvols Hfill].
  - intros i q Hi. rewrite decide_False by lia.
    apply Hzero. by eapply list_elem_of_lookup_2.
  - lia.
  - split.
    + rewrite Hvols, Hlen. simpl. apply firstn_all.
    + intros p Hp. apply list_elem_of_lookup in Hp as [i Hi].
      rewrite (Hfill i p Hi). rewrite decide_True; [done|].
      apply lookup_lt_Some in Hi. lia.
Qed.

Lemma STORAGE_PATHS_NoDup : NoDup STORAGE_PATHS.
Proof. apply (bool_decide_unpack _). by vm_compute. Qed.

Lemma select_storage_path_total d : is_Some (select_storage_path d).
Proof.
  destruct (select_storage_path_from_spec STORAGE_PATHS d) as (b & p & a & _ & Hsel & _).
  - apply STORAGE_PATHS_NoDup.
  - done.
  - by exists p.
Qed.

(** A successful upload is one placement. *)
Lemma upload_file_placed env file expires_in w r w' :
  upload_file env file expires_in w = (Return r, w') →
  placed STORAGE_PATHS (db w) [ur_storage_location r] (db w').
Proof.
  intros Hup.
  apply upload_file_created in Hup
    as (sp & ex & dsk & sz & _ & Hsel & _ & _ & _ & Hdb & _ & Hloc & _).
  rewrite Hloc, Hdb.
  apply (placed_cons STORAGE_PATHS (db w) (uuid4 env) (new_record env file sp ex sz));
    [done | apply placed_nil].
Qed.

Lemma placed_app paths d1 vols1 d2 vols2 d3 :
  placed paths d1 vols1 d2 → placed paths d2 vols2 d3 →
  placed paths d1 (vols1 ++ vols2) d3.
Proof.
  induction 1 as [d|d file_id data vols d' Hsel Hrest IH]; intros H23; simpl; [done|].
  apply (placed_cons paths d file_id); auto.
Qed.

(** ** The sweep *)

Lemma dict_del_loop_head {V} (k : string) (v : V) r ids :
  k ∉ ids → foldl dict_del ((k, v) :: r) ids = (k, v) :: foldl dict_del r ids.
Proof.
  revert r. induction ids as [|i ids IH]; intros r Hk; simpl; [done|].
  apply not_elem_of_cons in Hk as [Hne Hk].
  rewrite decide_False by done. by apply IH.
Qed.

(** Deleting the keys of the selected items leaves the other items, in
    their order. *)
Lemma dict_del_loop_filter {V} (P : string * V → bool) (d : list (string * V)) :
  NoDup (dict_keys d) →
  foldl dict_del d (map fst (List.filter P d)) = List.filter (λ kv, negb (P kv)) d.
Proof.
  induction d as [|[k v] r IH]; simpl; [done|].
  rewrite NoDup_cons. intros [Hk Hnd]. destruct (P (k, v)) eqn:HP; simpl.
  - rewrite decide_True by done. by apply IH.
  - rewrite dict_del_loop_head, IH; [done..|].
    intros Hin. apply Hk. apply list_elem_of_In, in_map_iff in Hin as ([k' v'] & Heq & Hin).
    simpl in Heq. subst k'. apply filter_In in Hin as [Hin _].
    apply list_elem_of_In, in_map_iff. by exists (k, v').
Qed.

Lemma cleanup_loop_files faults ids : ∀ w,
  files (db (foldl (cleanup_one faults) w ids)) = foldl dict_del (files (db w)) ids.
Proof.
  induction ids as [|i ids IH]; intros w; simpl; [done|].
  by rewrite IH, cleanup_one_db, delete_file_files.
Qed.

Lemma count_on_filter_split (P : string * file_data → bool) v fl :
  count_on v fl =
  count_on v (List.filter P fl) + count_on v (List.filter (λ kv, negb (P kv)) fl).
Proof.
  induction fl as [|kv fl IH]; simpl; [done|].
  rewrite count_on_cons, IH. destruct (P kv); simpl; rewrite count_on_cons; lia.
Qed.

(** The records that a sweep at [now] selects. *)
Lemma get_expired_files_spec d now file_id :
  NoDup (dict_keys (files d)) →
  file_id ∈ get_expired_files d now ↔
  ∃ data, get_file d file_id = Some data ∧ fd_expires_at data < now.
Proof.
  unfold get_expired_files, get_file. induction (files d) as [|[k v] r IH]; simpl.
  - intros _. split; [intros H; by apply elem_of_nil in H | by intros (? & ? & _)].
  - rewrite NoDup_cons. intros [Hk Hnd]. specialize (IH Hnd).
    unfold is_expired at 1. simpl. case_bool_decide as Hexp; simpl.
    + rewrite elem_of_cons. case_decide as Hkey.
      * subst. split; [intros _; by exists v | by left].
      * rewrite IH. split; [intros [?|?]; [congruence|done] | by right].
    + case_decide as Hkey.
      * subst. split.
        -- intros Hin. exfalso. apply Hk.
           apply list_elem_of_In, in_map_iff in Hin as ([k' v'] & Heq & Hin).
           simpl in Heq. subst k'. apply filter_In in Hin as [Hin _].
           apply list_elem_of_In, in_map_iff. by exists (file_id, v').
        -- intros (data & [= <-] & Hlt). done.
      * apply IH.
Qed.

(** ** The volume during an upload *)

Lemma streamed_length_nil : streamed_length [] = 0%N.
Proof. done. Qed.

(** Without refusals from the system, the loop either saves the whole
    stream or stops at the chunk that crosses the limit and unlinks the
    file. *)
Lemma save_chunks_no_faults env file_path chunks : ∀ k file_size base,
  (∀ i, write_fault env i = None) → remove_fault env = None →
  (file_size ≤ MAX_FILE_SIZE)%N →
  save_chunks env file_path chunks k file_size (<[file_path := file_size]> base) =
  if decide (MAX_FILE_SIZE < file_size + streamed_length chunks)%N
  then (TooLarge, delete file_path base)
  else (Saved (file_size + streamed_length chunks)%N,
        <[file_path := (file_size + streamed_length chunks)%N]> base).
Proof.
  induction chunks as [|c rest IH]; intros k sz base Hw Hr Hsz; simpl.
  - rewrite N.add_0_r. by rewrite decide_False by lia.
  - destruct (decide (c = 0%N)) as [->|Hc].
    { rewrite N.add_0_r. by rewrite decide_False by lia. }
    destruct (decide (MAX_FILE_SIZE < sz + c)%N) as [Hbig|Hok].
    + rewrite decide_True by lia. unfold os_remove.
      rewrite Hr, lookup_insert_eq. by rewrite delete_insert_eq.
    + unfold os_write. rewrite Hw, alter_insert_eq.
      rewrite IH by (done || lia). rewrite N.add_assoc. done.
Qed.

(** When the system accepts the writes and refuses the unlink, a stream
    that crosses the limit ends the loop on the [OSError] of [os.remove]
    (line 130), with the file holding what was written before the chunk
    that crosses the limit. *)
Lemma save_chunks_unlink_refused env file_path chunks msg : ∀ k file_size base,
  (∀ i, write_fault env i = None) → remove_fault env = Some msg →
  (file_size ≤ MAX_FILE_SIZE)%N →
  (MAX_FILE_SIZE < file_size + streamed_length chunks)%N →
  ∃ sz, (file_size ≤ sz ≤ MAX_FILE_SIZE)%N ∧
    save_chunks env file_path chunks k file_size (<[file_path := file_size]> base) =
      (IOError msg, <[file_path := sz]> base).
Proof.
  induction chunks as [|c rest IH]; intros k sz base Hw Hr Hsz Hbig; simpl in *.
  - lia.
  - destruct (decide (c = 0%N)) as [->|Hc]; [lia|].
    destruct (decide (MAX_FILE_SIZE < sz + c)%N) as [Hcross|Hok].
    + unfold os_remove. rewrite Hr. exists sz. split; [lia|done].
    + unfold os_write. rewrite Hw, alter_insert_eq.
      destruct (IH (S k) (sz + c)%N base Hw Hr) as (sz' & Hle & ->); [lia..|].
      exists sz'. split; [lia|done].
Qed.

(** The same for a stream of [n] chunks of [c] bytes, of which [m] fit
    within the limit: the file is left with [m] chunks. *)
Lemma save_chunks_repeat_unlink_refused env file_path c msg m base :
  (0 < c)%N → (∀ i, write_fault env i = None) → remove_fault env = Some msg →
  (m * c ≤ MAX_FILE_SIZE)%N → (MAX_FILE_SIZE < (m + 1) * c)%N →
  ∀ n k j, (j ≤ m)%N → (m < j + N.of_nat n)%N →
  save_chunks env file_path (repeat c n) k (j * c) (<[file_path := (j * c)%N]> base) =
    (IOError msg, <[file_path := (m * c)%N]> base).
Proof.
  intros Hc Hw Hr Hfit Hcross.
  induction n as [|n IH]; intros k j Hj Hn; [lia|]. cbn [repeat save_chunks].
  rewrite decide_False by lia.
  destruct (decide (MAX_FILE_SIZE < j * c + c)%N) as [Hover|Hunder].
  - unfold os_remove. rewrite Hr. assert (j = m) as -> by nia. done.
  - unfold os_write. rewrite Hw, alter_insert_eq.
    replace (j * c + c)%N with ((j + 1) * c)%N by lia.
    apply IH; nia.
Qed.

(** The answer to an upload whose loop ends on an error of the system. *)
Lemma upload_file_storage_error env file expires_in w storage_path expires_at msg dsk' :
  declared_too_large file = false →
  select_storage_path (db w) = Some storage_path →
  datetime_add_seconds (utcnow_121 env) expires_in = Some expires_at →
  open_fault env = None →
  save_chunks env (os_path_join storage_path (uuid4 env)) (body file) 0 0%N
    (<[os_path_join storage_path (uuid4 env) := 0%N]> (disk w)) = (IOError msg, dsk') →
  upload_file env file expires_in w =
    (Raise (storage_error msg), {| db := db w; disk := dsk' |}).
Proof.
  intros Hdecl Hsel Hexp Hopen Hsave.
  unfold upload_file. rewrite Hdecl, Hsel, Hexp. unfold os_open_wb. rewrite Hopen.
  by rewrite Hsave.
Qed.

(** A loop that ends on an error of the system has not unlinked the file. *)
Lemma save_chunks_IOError_keeps env file_path chunks : ∀ k file_size dsk msg dsk',
  save_chunks env file_path chunks k file_size dsk = (IOError msg, dsk') →
  is_Some (dsk !! file_path) → is_Some (dsk' !! file_path).
Proof.
  induction chunks as [|c rest IH]; intros k sz dsk msg dsk' Hsave Hin; simpl in Hsave.
  - done.
  - destruct (decide (c = 0%N)); [done|].
    destruct (decide (MAX_FILE_SIZE < sz + c)%N).
    + destruct (os_remove _ _ _); by simplify_eq.
    + unfold os_write in Hsave. destruct (write_fault env k); [by simplify_eq|].
      apply IH in Hsave; [done|]. rewrite lookup_alter_eq.
      destruct Hin as [x ->]. by eexists.
Qed.

Lemma dict_get_filter {V} (P : string * V → bool) (d : list (string * V)) k :
  NoDup (dict_keys d) →
  dict_get (List.filter P d) k =
  match dict_get d k with
  | Some v => if P (k, v) then Some v else None
  | None => None
  end.
Proof.
  induction d as [|[k' v'] r IH]; simpl; [done|].
  rewrite NoDup_cons. intros [Hk Hnd]. specialize (IH Hnd).
  destruct (decide (k' = k)) as [->|Hne].
  - destruct (P (k, v')) eqn:HP; simpl; [by rewrite decide_True|].
    rewrite IH. apply dict_get_None in Hk. by rewrite Hk.
  - destruct (P (k', v')); simpl; [by rewrite decide_False|done].
Qed.

(** The store after a sweep, for any consistent store. *)
Lemma cleanup_expired_files_db now faults w :
  consistent (db w) →
  files (db (cleanup_expired_files now faults w)) =
    List.filter (λ kv, negb (is_expired now kv.2)) (files (db w)) ∧
  ∀ v, stats_get (stats (db (cleanup_expired_files now faults w))) v =
       stats_get (stats (db w)) v -
       count_on v (List.filter (λ kv, is_expired now kv.2) (files (db w))).
Proof.
  intros Hc.
  assert (files (db (cleanup_expired_files now faults w)) =
          List.filter (λ kv, negb (is_expired now kv.2)) (files (db w))) as Hfiles.
  { unfold cleanup_expired_files, get_expired_files.
    rewrite cleanup_loop_files. apply dict_del_loop_filter, Hc. }
  split; [done|]. intros v.
  pose proof (cleanup_loop_consistent faults (get_expired_files (db w) now) w Hc)
    as [_ Hcnt'].
  fold (cleanup_expired_files now faults w) in Hcnt'.
  rewrite Hcnt', Hfiles. destruct Hc as [_ Hcnt]. rewrite Hcnt.
  rewrite (count_on_filter_split (λ kv, is_expired now kv.2) v (files (db w))). lia.
Qed.

(** A loop that runs to the end has counted the whole stream, which fits
    the limit. *)
Lemma save_chunks_Saved env file_path chunks : ∀ k file_size dsk saved dsk',
  (file_size ≤ MAX_FILE_SIZE)%N →
  save_chunks env file_path chunks k file_size dsk = (Saved saved, dsk') →
  saved = (file_size + streamed_length chunks)%N ∧ (saved ≤ MAX_FILE_SIZE)%N.
Proof.
  induction chunks as [|c rest IH]; intros k sz dsk saved dsk' Hsz Hsave;
    simpl in Hsave |- *.
  - injection Hsave as <- _. split; [|done]. by rewrite N.add_0_r.
  - destruct (decide (c = 0%N)).
    { injection Hsave as <- _. split; [|done]. by rewrite N.add_0_r. }
    destruct (decide (MAX_FILE_SIZE < sz + c)%N).
    + by destruct (os_remove _ _ _).
    + destruct (os_write _ _ _ _) as [msg|dsk1]; [done|].
      apply IH in Hsave as [-> Hle]; [|lia]. split; [|done]. by rewrite N.add_assoc.
Qed.

(** Whatever the system does, a stream longer than the limit is refused
    and adds no record. *)
Lemma upload_file_over_limit_refused env file expires_in w :
  (MAX_FILE_SIZE < streamed_length (body file))%N →
  ∃ e w', upload_file env file expires_in w = (Raise e, w') ∧ db w' = db w.
Proof.
  intros Hbig.
  destruct (upload_file env file expires_in w) as [[r|e] w'] eqn:Hup.
  - apply upload_file_created in Hup
      as (sp & ex & dsk & sz & _ & _ & _ & _ & Hsave & _).
    apply save_chunks_Saved in Hsave as [-> Hle]; [|done]. simpl in Hle. lia.
  - exists e, w'. split; [done|]. by apply upload_file_raised in Hup.
Qed.

(** A storage error raised once the file is open leaves the file where it
    is: the handler of [IOError] removes nothing. *)
Lemma upload_file_storage_error_keeps_file env file expires_in w storage_path msg w' :
  select_storage_path (db w) = Some storage_path →
  open_fault env = None →
  upload_file env file expires_in w = (Raise (storage_error msg), w') →
  db w' = db w ∧ is_Some (disk w' !! os_path_join storage_path (uuid4 env)).
Proof.
  intros Hsel Hopen Hup. split; [by apply upload_file_raised in Hup|].
  unfold upload_file in Hup. rewrite Hsel in Hup. unfold os_open_wb in Hup.
  rewrite Hopen in Hup.
  destruct (declared_too_large file); [done|].
  destruct (datetime_add_seconds _ _); [|done].
  destruct (save_chunks _ _ _ _ _ _) as [[sz| |msg'] dsk'] eqn:Hsave; [done..|].
  injection Hup as _ <-. simpl.
  apply save_chunks_IOError_keeps in Hsave; [done|].
  rewrite lookup_insert_eq. by eexists.
Qed.

(** ** The volume during a sweep *)

Lemma remove_quietly_failed fault path dsk msg :
  os_remove fault path dsk = inl msg → remove_quietly fault path dsk = dsk.
Proof. unfold remove_quietly. by intros ->. Qed.

Lemma remove_quietly_other fault path dsk other :
  other ≠ path → remove_quietly fault path dsk !! other = dsk !! other.
Proof.
  intros Hne. unfold remove_quietly, os_remove.
  destruct fault; [done|]. destruct (dsk !! path); [|done].
  by rewrite lookup_delete_ne.
Qed.

(** A path whose removal the system refuses, or that holds no file, is the
    same after the sweep. *)
Lemma cleanup_loop_disk faults path ids : ∀ w,
  is_Some (faults path) ∨ disk w !! path = None →
  disk (foldl (cleanup_one faults) w ids) !! path = disk w !! path.
Proof.
  induction ids as [|i ids IH]; intros w Hpath; simpl; [done|].
  assert (disk (cleanup_one faults w i) !! path = disk w !! path) as Hone.
  { unfold cleanup_one. destruct (get_file (db w) i) as [data|]; [|done]. simpl.
    destruct (decide (path = os_path_join (fd_storage_path data) i)) as [<-|Hne].
    - unfold remove_quietly, os_remove. destruct Hpath as [[m ->]|Hnone]; [done|].
      rewrite Hnone. by destruct (faults path).
    - by apply remove_quietly_other. }
  rewrite IH, Hone; [done|]. destruct Hpath as [?|Hnone]; [by left|right; congruence].
Qed.

(** * The claims *)

(** ** Create *)

(** C1, as amended.  An upload whose stream is longer than
    [MAX_FILE_SIZE] (5 GiB) is always refused and never adds a record,
    whatever the system does.  When the declared size already exceeds the
    limit it is answered 413 before anything is read or written.
    Otherwise, once the stream is being saved (the expiry date is
    representable, the file opens and the system accepts the writes), the
    loop reaches the chunk that crosses the limit and calls [os.remove]
    (line 130).  When the system accepts the unlink, the request is
    answered 413 and the partial file is gone: the path holds no file
    afterwards.  When the system refuses it, the [OSError] is caught by
    [except IOError] (line 136): the request is answered 500 with the
    message of the system, and the partial file stays, holding the bytes
    written so far, which are within the limit.  Either way every other
    path is as before. *)
Theorem upload_over_limit_aborts env file expires_in w :
  (MAX_FILE_SIZE < streamed_length (body file))%N →
  (∃ e w', upload_file env file expires_in w = (Raise e, w') ∧ db w' = db w) ∧
  (declared_too_large file = true →
   upload_file env file expires_in w = (Raise too_large_declared, w) ∧
   status_code too_large_declared = 413) ∧
  (declared_too_large file = false →
   is_Some (datetime_add_seconds (utcnow_121 env) expires_in) →
   open_fault env = None → (∀ i, write_fault env i = None) →
   ∃ storage_path,
     select_storage_path (db w) = Some storage_path ∧
     (remove_fault env = None →
      ∃ w',
        upload_file env file expires_in w = (Raise too_large_streamed, w') ∧
        status_code too_large_streamed = 413 ∧
        db w' = db w ∧
        disk w' !! os_path_join storage_path (uuid4 env) = None ∧
        ∀ other, other ≠ os_path_join storage_path (uuid4 env) →
                 disk w' !! other = disk w !! other) ∧
     (∀ msg, remove_fault env = Some msg →
      ∃ w' sz,
        upload_file env file expires_in w = (Raise (storage_error msg), w') ∧
        status_code (storage_error msg) = 500 ∧
        db w' = db w ∧
        disk w' !! os_path_join storage_path (uuid4 env) = Some sz ∧
        (sz ≤ MAX_FILE_SIZE)%N ∧
        ∀ other, other ≠ os_path_join storage_path (uuid4 env) →
                 disk w' !! other = disk w !! other)).
Proof.
  intros Hbig. split; [by apply upload_file_over_limit_refused|]. split.
  - intros Hdecl. unfold upload_file. by rewrite Hdecl.
  - intros Hdecl [expires_at Hexp] Hopen Hwrite.
    destruct (select_storage_path_total (db w)) as [sp Hsel].
    exists sp. split; [done|]. split.
    + intros Hremove.
      exists {| db := db w; disk := delete (os_path_join sp (uuid4 env)) (disk w) |}.
      split.
      * unfold upload_file. rewrite Hdecl, Hsel, Hexp. unfold os_open_wb. rewrite Hopen.
        rewrite save_chunks_no_faults by done. by rewrite decide_True by done.
      * split; [done|]. split; [done|]. simpl. split.
        -- apply lookup_delete_eq.
        -- intros other Hne. by apply lookup_delete_ne.
    + intros msg Hremove.
      destruct (save_chunks_unlink_refused env (os_path_join sp (uuid4 env))
                  (body file) msg 0 0%N (disk w) Hwrite Hremove)
        as (sz & Hle & Hsave); [lia|by rewrite N.add_0_l|].
      exists {| db := db w; disk := <[os_path_join sp (uuid4 env) := sz]> (disk w) |}, sz.
      split.
      * unfold upload_file. rewrite Hdecl, Hsel, Hexp. unfold os_open_wb. rewrite Hopen.
        by rewrite Hsave.
      * split; [done|]. split; [done|]. simpl. split; [apply lookup_insert_eq|].
        split; [lia|]. intros other Hne. by apply lookup_insert_ne.
Qed.

Lemma upload_over_limit_aborts_witness :
  (MAX_FILE_SIZE < streamed_length (body oversized))%N ∧
  declared_too_large oversized = false ∧
  datetime_add_seconds at_08_00_00 60 = Some at_08_01_00 ∧
  (∃ e w', upload_file second_upload oversized 60 world_1 = (Raise e, w') ∧
           db w' = db world_1) ∧
  ∃ storage_path,
    select_storage_path (db world_1) = Some storage_path ∧
    ∃ w',
      upload_file second_upload oversized 60 world_1 = (Raise too_large_streamed, w') ∧
      status_code too_large_streamed = 413 ∧
      db w' = db world_1 ∧
      disk w' !! os_path_join storage_path "f-0002" = None ∧
      ∀ other, other ≠ os_path_join storage_path "f-0002" →
               disk w' !! other = disk world_1 !! other.
Proof.
  assert (MAX_FILE_SIZE < streamed_length (body oversized))%N as Hbig
    by (vm_compute; reflexivity).
  destruct (upload_over_limit_aborts second_upload oversized 60 world_1 Hbig)
    as (Hrefused & _ & Hstreamed).
  split; [exact Hbig|]. split; [reflexivity|]. split; [reflexivity|].
  split; [exact Hrefused|].
  destruct (Hstreamed eq_refl (ex_intro _ at_08_01_00 eq_refl) eq_refl (λ _, eq_refl))
    as (sp & Hsel & Hunlinked & _).
  exists sp. split; [exact Hsel|]. exact (Hunlinked eq_refl).
Defined.

(** C1 as stated fails when the system refuses the unlink.  The stream of
    655361 chunks crosses the limit at its last chunk; [os.remove] raises
    [PermissionError], which [except IOError] catches: the request is
    answered 500, not 413, and the partial file of 5 GiB stays on the chosen
    volume.  No record is added. *)
Lemma upload_over_limit_unlink_refused :
  let w' := {| db := db world_1;
               disk := <["/storage2/f-0002" := MAX_FILE_SIZE]> (disk world_1) |} in
  (MAX_FILE_SIZE < streamed_length (body oversized))%N ∧
  declared_too_large oversized = false ∧
  select_storage_path (db world_1) = Some "/storage2" ∧
  disk world_1 !! "/storage2/f-0002" = None ∧
  upload_file unlink_refused oversized 60 world_1 =
    (Raise (storage_error "[Errno 13] Permission denied"), w') ∧
  status_code (storage_error "[Errno 13] Permission denied") = 500 ∧
  upload_file unlink_refused oversized 60 world_1 ≠ (Raise too_large_streamed, w') ∧
  disk w' !! "/storage2/f-0002" = Some MAX_FILE_SIZE ∧
  get_file (db w') "f-0002" = None.
Proof.
  assert (save_chunks unlink_refused "/storage2/f-0002"
            (repeat CHUNK_SIZE (N.to_nat 655361)) 0 (0 * CHUNK_SIZE)
            (<["/storage2/f-0002" := (0 * CHUNK_SIZE)%N]> (disk world_1)) =
          (IOError "[Errno 13] Permission denied",
           <["/storage2/f-0002" := (655360 * CHUNK_SIZE)%N]> (disk world_1))) as Hsave.
  { apply save_chunks_repeat_unlink_refused;
      [done | done | done | by vm_compute | by vm_compute | lia
      | rewrite N2Nat.id; lia]. }
  assert (upload_file unlink_refused oversized 60 world_1 =
            (Raise (storage_error "[Errno 13] Permission denied"),
             {| db := db world_1;
                disk := <["/storage2/f-0002" := MAX_FILE_SIZE]> (disk world_1) |}))
    as Hup.
  { by apply (upload_file_storage_error unlink_refused oversized 60 world_1
                "/storage2" at_08_01_00). }
  intros w'. split; [vm_compute; reflexivity|]. split; [reflexivity|].
  split; [reflexivity|]. split; [reflexivity|]. split; [exact Hup|].
  split; [reflexivity|]. split; [rewrite Hup; discriminate|].
  split; [apply lookup_insert_eq|]. reflexivity.
Qed.

(** C5, on the input where the code departs from it.  The second write of
    an upload fails for lack of space: the request is answered 500 with a
    storage error and no record is added, but the handler of [IOError] does
    not unlink anything, and the first chunk stays on the chosen volume. *)
Theorem upload_write_failure_leaves_partial_file :
  ∃ w',
    upload_file disk_full_at_second_write two_chunks 60 world_1 =
      (Raise (storage_error "[Errno 28] No space left on device"), w') ∧
    db w' = db world_1 ∧
    get_file (db w') "f-0002" = None ∧
    disk w' !! "/storage2/f-0002" = Some 8192%N.
Proof. eexists. split; [vm_compute; reflexivity|]. by vm_compute. Qed.

(** C6.  The record that a successful upload persists carries the clock
    read before the stream is saved plus the requested seconds as
    [expires_at], and the clock read after the stream is saved as
    [uploaded_at]; the response reports the same [expires_at].  So
    [expires_at] is [uploaded_at] plus the requested seconds exactly when
    the two readings coincide. *)
Theorem upload_expiry_from_first_clock_reading env file expires_in w r w' :
  upload_file env file expires_in w = (Return r, w') →
  ∃ data,
    get_file (db w') (uuid4 env) = Some data ∧
    fd_expires_at data = utcnow_121 env + expires_in * 1000000 ∧
    fd_uploaded_at data = utcnow_150 env ∧
    ur_expires_at r = fd_expires_at data ∧
    (fd_expires_at data = fd_uploaded_at data + expires_in * 1000000 ↔
     utcnow_121 env = utcnow_150 env).
Proof.
  intros Hup.
  apply upload_file_created in Hup
    as (sp & ex & dsk & sz & _ & _ & Hex & _ & _ & Hdb & _ & _ & Hrex & _).
  exists (new_record env file sp ex sz). rewrite Hdb. split.
  - unfold get_file. simpl. apply dict_get_set_eq.
  - unfold datetime_add_seconds in Hex. case_decide; [|done].
    injection Hex as <-. simpl. rewrite Hrex. repeat split; lia.
Qed.

Lemma upload_expiry_from_first_clock_reading_witness :
  ∃ r,
    upload_file first_upload report_txt DEFAULT_EXPIRY initial_world
      = (Return r, world_1) ∧
    ∃ data,
      get_file (db world_1) "f-0001" = Some data ∧
      fd_expires_at data = at_07_05_00 + DEFAULT_EXPIRY * 1000000 ∧
      fd_uploaded_at data = at_07_05_02 ∧
      ur_expires_at r = fd_expires_at data ∧
      (fd_expires_at data = fd_uploaded_at data + DEFAULT_EXPIRY * 1000000 ↔
       at_07_05_00 = at_07_05_02).
Proof.
  eexists. split; [reflexivity|].
  apply (upload_expiry_from_first_clock_reading
           first_upload report_txt DEFAULT_EXPIRY initial_world).
  reflexivity.
Defined.

(** C6 as stated fails: an upload that starts at 07:05:00, is saved at
    07:05:02.5 and is kept for 24 hours is stored with [uploaded_at]
    07:05:02.5 and [expires_at] 07:05:00 of the next day, two and a half
    seconds short of [uploaded_at] plus 24 hours. *)
Lemma upload_expiry_not_from_uploaded_at :
  ∃ r data,
    upload_file first_upload report_txt DEFAULT_EXPIRY initial_world
      = (Return r, world_1) ∧
    get_file (db world_1) "f-0001" = Some data ∧
    fd_uploaded_at data = at_07_05_02 ∧
    fd_uploaded_at data + DEFAULT_EXPIRY * 1000000 = next_day_07_05_02 ∧
    fd_expires_at data = next_day_07_05_00 ∧
    fd_expires_at data ≠ fd_uploaded_at data + DEFAULT_EXPIRY * 1000000.
Proof.
  eexists. eexists. split; [reflexivity|]. split; [reflexivity|]. by vm_compute.
Qed.

(** ** Download and inspect *)

(** C2.  For a handle with a record, a download is answered 410 exactly
    when the record's [expires_at] lies strictly before the clock reading,
    whatever the sweep has or has not done; and when it does not and the
    file is absent from the volume, the download is answered 404 "File not
    found in storage". *)
Theorem download_expiry_and_missing_file now file_id w data :
  get_file (db w) file_id = Some data →
  (download_file now file_id w = Raise gone ↔ fd_expires_at data < now) ∧
  (¬ fd_expires_at data < now →
   disk w !! os_path_join (fd_storage_path data) file_id = None →
   download_file now file_id w = Raise not_found_in_storage) ∧
  status_code gone = 410 ∧ status_code not_found_in_storage = 404.
Proof.
  intros Hget. unfold download_file. rewrite Hget. repeat split.
  - case_decide; [done|]. by case_match.
  - intros Hlt. by rewrite decide_True.
  - intros Hge Hmissing. rewrite decide_False by done.
    unfold os_path_exists. rewrite Hmissing.
    rewrite bool_decide_eq_false_2; [done|]. by intros [? ?].
Qed.

Lemma download_expiry_and_missing_file_witness :
  let w := {| db := db world_2; disk := ∅ |} in
  get_file (db w) "f-0002" = Some second_record ∧
  ¬ at_09_00_00 < at_08_30_00 ∧
  disk w !! os_path_join "/storage2" "f-0002" = None ∧
  (download_file at_08_30_00 "f-0002" w = Raise gone ↔ at_09_00_00 < at_08_30_00) ∧
  download_file at_08_30_00 "f-0002" w = Raise not_found_in_storage ∧
  status_code gone = 410 ∧ status_code not_found_in_storage = 404.
Proof.
  intros w.
  assert (¬ at_09_00_00 < at_08_30_00) as Hlive by (by vm_compute).
  destruct (download_expiry_and_missing_file at_08_30_00 "f-0002" w second_record
              eq_refl) as (Hgone & Hmissing & Hcodes).
  split; [reflexivity|]. split; [exact Hlive|]. split; [reflexivity|].
  split; [exact Hgone|]. split; [|exact Hcodes].
  exact (Hmissing Hlive eq_refl).
Defined.

(** C2 as stated fails at the instant of expiry: the second upload expires
    at 09:00:00, and a download at 09:00:00 sharp is served. *)
Lemma download_served_at_expiry_instant :
  ∃ data,
    get_file (db world_2) "f-0002" = Some data ∧
    fd_expires_at data = at_09_00_00 ∧
    at_09_00_00 >= fd_expires_at data ∧
    download_file at_09_00_00 "f-0002" world_2 =
      Return {| fr_path := "/storage2/f-0002";
                fr_filename := Some "report.txt";
                fr_media_type := Some "text/plain" |} ∧
    download_file at_09_00_00 "f-0002" world_2 ≠ Raise gone.
Proof. eexists. split; [reflexivity|]. by vm_compute. Qed.

(** C9.  For a handle with a record, inspection always answers with the
    stored metadata, the time to [expires_at] floored at zero, and a flag
    that is set exactly when that time is zero or negative, that is exactly
    when the floored time is zero; past [expires_at] the flag is set and the
    answer is still the metadata, while a download at the same instant is
    answered 410. *)
Theorem inspect_reports_expiry now file_id w data :
  get_file (db w) file_id = Some data →
  ∃ info,
    get_file_info now file_id w = Return info ∧
    fi_id info = file_id ∧
    fi_original_name info = fd_original_name data ∧
    fi_size info = fd_size data ∧
    fi_content_type info = fd_content_type data ∧
    fi_storage_location info = fd_storage_path data ∧
    fi_uploaded_at info = fd_uploaded_at data ∧
    fi_expires_at info = fd_expires_at data ∧
    fi_remaining_microseconds info = Z.max 0 (fd_expires_at data - now) ∧
    (fi_expired info = true ↔ fd_expires_at data - now ≤ 0) ∧
    (fi_expired info = true ↔ fi_remaining_microseconds info = 0) ∧
    (fd_expires_at data < now →
     fi_expired info = true ∧ download_file now file_id w = Raise gone).
Proof.
  intros Hget. unfold get_file_info. rewrite Hget. eexists. split; [done|]. simpl.
  rewrite bool_decide_eq_true. repeat split; try done; try lia.
  unfold download_file. rewrite Hget. by rewrite decide_True.
Qed.

Lemma inspect_reports_expiry_witness :
  get_file (db world_2) "f-0002" = Some second_record ∧
  at_09_00_00 < at_12_00_00 ∧
  ∃ info,
    get_file_info at_12_00_00 "f-0002" world_2 = Return info ∧
    fi_id info = "f-0002" ∧
    fi_original_name info = Some "report.txt" ∧
    fi_size info = 8202%N ∧
    fi_content_type info = Some "text/plain" ∧
    fi_storage_location info = "/storage2" ∧
    fi_uploaded_at info = at_08_00_01 ∧
    fi_expires_at info = at_09_00_00 ∧
    fi_remaining_microseconds info = Z.max 0 (at_09_00_00 - at_12_00_00) ∧
    (fi_expired info = true ↔ at_09_00_00 - at_12_00_00 ≤ 0) ∧
    (fi_expired info = true ↔ fi_remaining_microseconds info = 0) ∧
    fi_expired info = true ∧
    download_file at_12_00_00 "f-0002" world_2 = Raise gone.
Proof.
  assert (at_09_00_00 < at_12_00_00) as Hpast by reflexivity.
  split; [reflexivity|]. split; [exact Hpast|].
  destruct (inspect_reports_expiry at_12_00_00 "f-0002" world_2 second_record eq_refl)
    as (info & H1 & H2 & H3 & H4 & H5 & H6 & H7 & H8 & H9 & H10 & H11 & H12).
  exists info.
  repeat (split; [assumption|]). exact (H12 Hpast).
Defined.

(** ** Delete *)

(** C8.  In a reachable world, deleting a handle without a record is
    answered 404 and changes nothing.  Deleting a handle with a record is
    answered "deleted" whatever the removal of the file does: the file is
    unlinked when the system allows it, a missing file leaves the volume
    as it is, the record is gone, the records of other handles stay, the
    counter of the record's volume is one less and no other counter moves;
    an inspection right after is answered 404, and so is a second
    deletion. *)
Theorem delete_then_not_found fault fault' now file_id w :
  reachable w →
  match get_file (db w) file_id with
  | None =>
      delete_file_handler fault file_id w = (Raise not_found, w) ∧
      status_code not_found = 404
  | Some data =>
      let file_path := os_path_join (fd_storage_path data) file_id in
      ∃ w',
        delete_file_handler fault file_id w =
          (Return {| dr_status := "deleted"; dr_id := file_id |}, w') ∧
        (fault = None → disk w' = delete file_path (disk w)) ∧
        (disk w !! file_path = None → disk w' = disk w) ∧
        get_file (db w') file_id = None ∧
        (∀ other, other ≠ file_id → get_file (db w') other = get_file (db w) other) ∧
        (∀ v, stats_get (stats (db w')) v =
              stats_get (stats (db w)) v -
              (if decide (fd_storage_path data = v) then 1 else 0)) ∧
        get_file_info now file_id w' = Raise not_found ∧
        delete_file_handler fault' file_id w' = (Raise not_found, w')
  end.
Proof.
  intros Hreach. apply reachable_consistent in Hreach as Hc.
  destruct (get_file (db w) file_id) as [data|] eqn:Hget.
  - simpl. eexists. split.
    { unfold delete_file_handler. rewrite Hget. reflexivity. }
    simpl. split; [|split; [|split; [|split; [|split; [|split]]]]].
    + intros ->. unfold remove_quietly, os_remove.
      destruct (disk w !! _) eqn:Hfile; [done|]. by rewrite delete_id.
    + intros Hmissing. unfold remove_quietly, os_remove. rewrite Hmissing.
      by destruct fault.
    + apply delete_file_get, Hc.
    + intros other Hne. by apply delete_file_get_ne.
    + intros v. by apply delete_file_stats.
    + unfold get_file_info. simpl. by rewrite delete_file_get by apply Hc.
    + unfold delete_file_handler. simpl. by rewrite delete_file_get by apply Hc.
  - split; [|done]. unfold delete_file_handler. by rewrite Hget.
Qed.

Lemma world_2_reachable : reachable world_2.
Proof.
  eapply reachable_step.
  - eapply reachable_step; [apply reachable_initial|].
    apply (step_upload first_upload report_txt DEFAULT_EXPIRY). reflexivity.
  - apply (step_upload second_upload report_txt 3600). reflexivity.
Defined.

Lemma delete_then_not_found_witness :
  reachable world_2 ∧
  ∃ w',
    delete_file_handler None "f-0001" world_2 =
      (Return {| dr_status := "deleted"; dr_id := "f-0001" |}, w') ∧
    disk w' = delete "/storage/f-0001" (disk world_2) ∧
    get_file (db w') "f-0001" = None ∧
    (∀ other, other ≠ "f-0001" → get_file (db w') other = get_file (db world_2) other) ∧
    (∀ v, stats_get (stats (db w')) v =
          stats_get (stats (db world_2)) v -
          (if decide ("/storage" = v) then 1 else 0)) ∧
    get_file_info at_08_30_00 "f-0001" w' = Raise not_found ∧
    delete_file_handler None "f-0001" w' = (Raise not_found, w').
Proof.
  split; [exact world_2_reachable|].
  destruct (delete_then_not_found None None at_08_30_00 "f-0001" world_2
              world_2_reachable)
    as (w' & Hdel & Hdisk & _ & Hrest).
  exists w'. split; [exact Hdel|]. split; [exact (Hdisk eq_refl)|]. exact Hrest.
Defined.

(** C10.  Whenever the removal of a record's file fails, for a missing file
    or for any other refusal of the system, the deletion is still answered
    "deleted", the record is gone, the counter of its volume is one less and
    the volume is left as it was; and a sweep that selects the record
    removes it and lowers the counters by the number of records it selects,
    while the path is as it was.  A file that exists and cannot be unlinked
    therefore stays on the volume with no record for its handle. *)
Theorem removal_errors_are_swallowed fault faults now file_id data msg w :
  reachable w →
  get_file (db w) file_id = Some data →
  let file_path := os_path_join (fd_storage_path data) file_id in
  let w' := (delete_file_handler fault file_id w).2 in
  let w'' := cleanup_expired_files now faults w in
  (os_remove fault file_path (disk w) = inl msg →
   (delete_file_handler fault file_id w).1 =
     Return {| dr_status := "deleted"; dr_id := file_id |} ∧
   get_file (db w') file_id = None ∧
   stats_get (stats (db w')) (fd_storage_path data) =
     stats_get (stats (db w)) (fd_storage_path data) - 1 ∧
   disk w' = disk w ∧
   (is_Some (disk w !! file_path) →
    is_Some (disk w' !! file_path) ∧ get_file (db w') file_id = None)) ∧
  (os_remove (faults file_path) file_path (disk w) = inl msg →
   fd_expires_at data < now →
   get_file (db w'') file_id = None ∧
   (∀ v, stats_get (stats (db w'')) v =
         stats_get (stats (db w)) v -
         count_on v (List.filter (λ kv, is_expired now kv.2) (files (db w)))) ∧
   disk w'' !! file_path = disk w !! file_path ∧
   (is_Some (disk w !! file_path) →
    is_Some (disk w'' !! file_path) ∧ get_file (db w'') file_id = None)).
Proof.
  intros Hreach Hget. apply reachable_consistent in Hreach as Hc. simpl. split.
  - intros Hfail.
    assert (disk (delete_file_handler fault file_id w).2 = disk w) as Hdisk.
    { unfold delete_file_handler. rewrite Hget. simpl.
      by apply (remove_quietly_failed _ _ _ msg). }
    assert (get_file (db (delete_file_handler fault file_id w).2) file_id = None)
      as Hgone.
    { rewrite delete_file_handler_db. apply delete_file_get, Hc. }
    split; [|split; [done|split; [|split; [done|]]]].
    + unfold delete_file_handler. by rewrite Hget.
    + rewrite delete_file_handler_db, (delete_file_stats _ _ data) by done.
      by rewrite decide_True.
    + rewrite Hdisk. done.
  - intros Hfail Hexp.
    destruct (cleanup_expired_files_db now faults w Hc) as [Hfiles Hstats].
    assert (get_file (db (cleanup_expired_files now faults w)) file_id = None)
      as Hgone.
    { unfold get_file in *. rewrite Hfiles, dict_get_filter, Hget by apply Hc.
      simpl. unfold is_expired. by rewrite bool_decide_eq_true_2. }
    assert (disk (cleanup_expired_files now faults w) !! os_path_join (fd_storage_path data) file_id
            = disk w !! os_path_join (fd_storage_path data) file_id) as Hdisk.
    { apply cleanup_loop_disk. unfold os_remove in Hfail.
      destruct (faults _); [by left; eexists|].
      destruct (disk w !! _); [done|by right]. }
    split; [done|]. split; [done|]. split; [done|]. by rewrite Hdisk.
Qed.

Lemma removal_errors_are_swallowed_witness :
  let w' := (delete_file_handler refused "f-0002" world_2).2 in
  let w'' := cleanup_expired_files at_12_00_00 (λ _, refused) world_2 in
  reachable world_2 ∧
  get_file (db world_2) "f-0002" = Some second_record ∧
  os_remove refused "/storage2/f-0002" (disk world_2)
    = inl "[Errno 13] Permission denied" ∧
  at_09_00_00 < at_12_00_00 ∧
  is_Some (disk world_2 !! "/storage2/f-0002") ∧
  ((delete_file_handler refused "f-0002" world_2).1 =
     Return {| dr_status := "deleted"; dr_id := "f-0002" |} ∧
   get_file (db w') "f-0002" = None ∧
   stats_get (stats (db w')) "/storage2" =
     stats_get (stats (db world_2)) "/storage2" - 1 ∧
   disk w' = disk world_2 ∧
   is_Some (disk w' !! "/storage2/f-0002") ∧ get_file (db w') "f-0002" = None) ∧
  (get_file (db w'') "f-0002" = None ∧
   (∀ v, stats_get (stats (db w'')) v =
         stats_get (stats (db world_2)) v -
         count_on v (List.filter (λ kv, is_expired at_12_00_00 kv.2)
                       (files (db world_2)))) ∧
   disk w'' !! "/storage2/f-0002" = disk world_2 !! "/storage2/f-0002" ∧
   is_Some (disk w'' !! "/storage2/f-0002") ∧ get_file (db w'') "f-0002" = None).
Proof.
  intros w' w''.
  assert (is_Some (disk world_2 !! "/storage2/f-0002")) as Hfile
    by (exists 8202%N; reflexivity).
  assert (at_09_00_00 < at_12_00_00) as Hpast by reflexivity.
  destruct (removal_errors_are_swallowed
              refused (λ _, refused) at_12_00_00 "f-0002" second_record
              "[Errno 13] Permission denied" world_2 world_2_reachable eq_refl)
    as [Hdelete Hsweep].
  split; [exact world_2_reachable|]. split; [reflexivity|].
  split; [reflexivity|]. split; [exact Hpast|]. split; [exact Hfile|]. split.
  - destruct (Hdelete eq_refl) as (H1 & H2 & H3 & H4 & H5).
    split; [exact H1|]. split; [exact H2|]. split; [exact H3|]. split; [exact H4|].
    exact (H5 Hfile).
  - destruct (Hsweep eq_refl Hpast) as (H1 & H2 & H3 & H4).
    split; [exact H1|]. split; [exact H2|]. split; [exact H3|]. exact (H4 Hfile).
Defined.

(** ** The sweep *)

(** C4.  In a reachable world, one sweep at [now] removes exactly the
    records whose [expires_at] lies strictly before [now]: the records left
    are the others, unchanged and in their order, so that a handle keeps
    its record exactly when that record is not selected; the number of
    records goes down by the number selected; every counter goes down by
    the number of selected records of its volume; and a sweep that selects
    nothing leaves the world as it is. *)
Theorem sweep_removes_strictly_expired now faults w :
  reachable w →
  let w' := cleanup_expired_files now faults w in
  let selected := List.filter (λ kv, is_expired now kv.2) (files (db w)) in
  get_expired_files (db w) now = map fst selected ∧
  (∀ file_id data, (file_id, data) ∈ selected ↔
     get_file (db w) file_id = Some data ∧ fd_expires_at data < now) ∧
  files (db w') = List.filter (λ kv, negb (is_expired now kv.2)) (files (db w)) ∧
  (∀ file_id, get_file (db w') file_id =
     match get_file (db w) file_id with
     | Some data => if decide (fd_expires_at data < now) then None else Some data
     | None => None
     end) ∧
  (length (files (db w')) + length selected = length (files (db w)))%nat ∧
  (∀ v, stats_get (stats (db w')) v = stats_get (stats (db w)) v - count_on v selected) ∧
  (selected = [] → w' = w).
Proof.
  intros Hreach. apply reachable_consistent in Hreach as Hc. simpl.
  destruct (cleanup_expired_files_db now faults w Hc) as [Hfiles Hstats].
  split; [done|]. split; [|split; [done|split; [|split; [|split; [done|]]]]].
  - intros file_id data. rewrite list_elem_of_In, filter_In, <- list_elem_of_In.
    unfold is_expired. simpl. rewrite bool_decide_eq_true. unfold get_file.
    split; intros [Hin Hlt]; (split; [|done]).
    + apply dict_get_elem; [apply Hc | done].
    + by apply dict_get_Some_elem.
  - intros file_id. unfold get_file. rewrite Hfiles, dict_get_filter by apply Hc.
    destruct (dict_get (files (db w)) file_id) as [data|]; [|done].
    simpl. unfold is_expired. case_bool_decide; simpl.
    + by rewrite decide_True.
    + by rewrite decide_False.
  - rewrite Hfiles. clear. induction (files (db w)) as [|kv l IH]; simpl; [done|].
    destruct (is_expired now kv.2); simpl; lia.
  - intros Hnone. unfold cleanup_expired_files, get_expired_files.
    by rewrite Hnone.
Qed.

Lemma sweep_removes_strictly_expired_witness :
  let quiet : string → os_fault := λ _, None in
  reachable world_2 ∧
  List.filter (λ kv, is_expired at_08_30_00 kv.2) (files (db world_2)) = [] ∧
  cleanup_expired_files at_08_30_00 quiet world_2 = world_2 ∧
  get_expired_files (db world_2) at_12_00_00 = ["f-0002"] ∧
  dict_keys (files (db (cleanup_expired_files at_12_00_00 quiet world_2)))
    = ["f-0001"] ∧
  (∀ v, stats_get (stats (db (cleanup_expired_files at_12_00_00 quiet world_2))) v =
        stats_get (stats (db world_2)) v -
        count_on v (List.filter (λ kv, is_expired at_12_00_00 kv.2)
                      (files (db world_2)))).
Proof.
  intros quiet.
  destruct (sweep_removes_strictly_expired at_08_30_00 quiet world_2 world_2_reachable)
    as (_ & _ & _ & _ & _ & _ & Hsame).
  destruct (sweep_removes_strictly_expired at_12_00_00 quiet world_2 world_2_reachable)
    as (Hsel & _ & Hfiles & _ & _ & Hstats & _).
  split; [exact world_2_reachable|]. split; [reflexivity|].
  split; [exact (Hsame eq_refl)|]. split; [rewrite Hsel; reflexivity|].
  split; [rewrite Hfiles; reflexivity | exact Hstats].
Defined.

(** C4 as stated fails on a record whose [expires_at] is the instant of
    the sweep: the second upload expires at 09:00:00, a sweep at 09:00:00
    sharp does not select it, and the world is left as it is. *)
Lemma sweep_keeps_record_at_expiry_instant :
  ∃ data,
    get_file (db world_2) "f-0002" = Some data ∧
    fd_expires_at data = at_09_00_00 ∧
    fd_expires_at data ≤ at_09_00_00 ∧
    get_expired_files (db world_2) at_09_00_00 = [] ∧
    cleanup_expired_files at_09_00_00 (λ _, None) world_2 = world_2 ∧
    get_file (db (cleanup_expired_files at_09_00_00 (λ _, None) world_2)) "f-0002"
      = Some data.
Proof. eexists. split; [reflexivity|]. by vm_compute. Qed.

(** ** Placement *)

(** C7.  For every store the policy returns a configured volume whose
    counter is the least, every volume declared before it having a strictly
    larger counter.  Hence records placed one after the other on any list of
    distinct volumes whose counters are all zero, as many records as there
    are volumes, go to the volumes in their order of declaration, one to
    each; and three successful uploads in a row, starting with the three
    configured volumes at zero, are stored on "/storage", "/storage2" and
    "/storage3", after which each of the three counters is one. *)
Theorem placement_least_loaded :
  (∀ d, ∃ before p after,
     STORAGE_PATHS = before ++ p :: after ∧
     select_storage_path d = Some p ∧
     (∀ q, q ∈ before → stats_get (stats d) p < stats_get (stats d) q) ∧
     (∀ q, q ∈ after → stats_get (stats d) p ≤ stats_get (stats d) q)) ∧
  (∀ paths d vols d',
     NoDup paths → (∀ p, p ∈ paths → stats_get (stats d) p = 0) →
     placed paths d vols d' → length vols = length paths →
     vols = paths ∧ ∀ p, p ∈ paths → stats_get (stats d') p = 1) ∧
  (∀ env1 env2 env3 file1 file2 file3 ttl1 ttl2 ttl3 w0 r1 w1 r2 w2 r3 w3,
     (∀ p, p ∈ STORAGE_PATHS → stats_get (stats (db w0)) p = 0) →
     upload_file env1 file1 ttl1 w0 = (Return r1, w1) →
     upload_file env2 file2 ttl2 w1 = (Return r2, w2) →
     upload_file env3 file3 ttl3 w2 = (Return r3, w3) →
     [ur_storage_location r1; ur_storage_location r2; ur_storage_location r3]
       = STORAGE_PATHS ∧
     ∀ p, p ∈ STORAGE_PATHS → stats_get (stats (db w3)) p = 1).
Proof.
  split; [|split].
  - intros d. apply select_storage_path_from_spec; [apply STORAGE_PATHS_NoDup | done].
  - intros paths d vols d' Hnd Hzero Hplaced Hlen. by apply (placed_one_on_each paths d).
  - intros env1 env2 env3 file1 file2 file3 ttl1 ttl2 ttl3 w0 r1 w1 r2 w2 r3 w3
      Hzero Hup1 Hup2 Hup3.
    apply upload_file_placed in Hup1, Hup2, Hup3.
    pose proof (placed_app _ _ _ _ _ _ Hup1 (placed_app _ _ _ _ _ _ Hup2 Hup3)) as Hall.
    simpl in Hall.
    by apply (placed_one_on_each STORAGE_PATHS (db w0) _ (db w3) STORAGE_PATHS_NoDup).
Qed.

Lemma placement_least_loaded_witness :
  let w3 := (upload_file third_upload two_chunks 60 world_2).2 in
  (∀ p, p ∈ STORAGE_PATHS → stats_get (stats (db initial_world)) p = 0) ∧
  ∃ r1 r2 r3,
    upload_file first_upload report_txt DEFAULT_EXPIRY initial_world
      = (Return r1, world_1) ∧
    upload_file second_upload report_txt 3600 world_1 = (Return r2, world_2) ∧
    upload_file third_upload two_chunks 60 world_2 = (Return r3, w3) ∧
    [ur_storage_location r1; ur_storage_location r2; ur_storage_location r3]
      = ["/storage"; "/storage2"; "/storage3"] ∧
    ∀ p, p ∈ STORAGE_PATHS → stats_get (stats (db w3)) p = 1.
Proof.
  intros w3.
  assert (∀ p, p ∈ STORAGE_PATHS → stats_get (stats (db initial_world)) p = 0) as Hzero
    by (intros p _; reflexivity).
  split; [exact Hzero|].
  assert (∃ r1, upload_file first_upload report_txt DEFAULT_EXPIRY initial_world
                  = (Return r1, world_1)) as [r1 Hup1] by (eexists; reflexivity).
  assert (∃ r2, upload_file second_upload report_txt 3600 world_1
                  = (Return r2, world_2)) as [r2 Hup2] by (eexists; reflexivity).
  assert (∃ r3, upload_file third_upload two_chunks 60 world_2
                  = (Return r3, w3)) as [r3 Hup3] by (eexists; reflexivity).
  exists r1, r2, r3. split; [exact Hup1|]. split; [exact Hup2|]. split; [exact Hup3|].
  exact (proj2 (proj2 placement_least_loaded)
           first_upload second_upload third_upload report_txt report_txt two_chunks
           DEFAULT_EXPIRY 3600 60 initial_world r1 world_1 r2 world_2 r3 w3
           Hzero Hup1 Hup2 Hup3).
Defined.

(** ** The counters *)

(** C3.  In every world reached from the empty store by uploads, deletions
    and sweeps, the counter stored for a volume (zero when the volume has no
    entry) is the number of records whose [storage_path] is that volume. *)
Theorem counters_equal_record_counts (w : world) (v : string) :
  reachable w → stats_get (stats (db w)) v = count_on v (files (db w)).
Proof. intros Hr. by apply reachable_consistent. Qed.

Lemma counters_equal_record_counts_witness :
  reachable world_2 ∧
  stats_get (stats (db world_2)) "/storage2" = count_on "/storage2" (files (db world_2)).
Proof.
  split; [exact world_2_reachable|].
  exact (counters_equal_record_counts world_2 "/storage2" world_2_reachable).
Defined.


(** * Further properties *)

(** ** What an upload leaves on the volume *)

(** The three ways out of the loop, started on a file of [file_size] bytes
    within the limit. *)
Lemma save_chunks_exit env file_path chunks : ∀ k file_size base exit dsk',
  (file_size ≤ MAX_FILE_SIZE)%N →
  save_chunks env file_path chunks k file_size (<[file_path := file_size]> base)
    = (exit, dsk') →
  match exit with
  | Saved saved =>
      saved = (file_size + streamed_length chunks)%N ∧
      (saved ≤ MAX_FILE_SIZE)%N ∧ dsk' = <[file_path := saved]> base
  | TooLarge => dsk' = delete file_path base
  | IOError _ => ∃ sz, (sz ≤ MAX_FILE_SIZE)%N ∧ dsk' = <[file_path := sz]> base
  end.
Proof.
  induction chunks as [|c rest IH]; intros k sz base exit dsk' Hsz Hsave;
    simpl in Hsave.
  - injection Hsave as <- <-. simpl. by rewrite N.add_0_r.
  - destruct (decide (c = 0%N)).
    { injection Hsave as <- <-. simpl. rewrite decide_True by done.
      by rewrite N.add_0_r. }
    destruct (decide (MAX_FILE_SIZE < sz + c)%N).
    + unfold os_remove in Hsave. destruct (remove_fault env).
      * injection Hsave as <- <-. by exists sz.
      * rewrite lookup_insert_eq in Hsave. injection Hsave as <- <-.
        by rewrite delete_insert_eq.
    + unfold os_write in Hsave. destruct (write_fault env k).
      * injection Hsave as <- <-. by exists sz.
      * rewrite alter_insert_eq in Hsave. apply IH in Hsave; [|lia].
        destruct exit; [|done..]. simpl. rewrite decide_False by done.
        destruct Hsave as (-> & Hle & ->). by rewrite N.add_assoc.
Qed.

Lemma upload_file_created_disk env file expires_in w r w' :
  upload_file env file expires_in w = (Return r, w') →
  ur_size r = streamed_length (body file) ∧
  (ur_size r ≤ MAX_FILE_SIZE)%N ∧
  disk w' = <[os_path_join (ur_storage_location r) (ur_id r) := ur_size r]> (disk w).
Proof.
  intros Hup.
  apply upload_file_created in Hup
    as (sp & ex & dsk & sz & _ & _ & _ & Hopen & Hsave & _ & -> & -> & _ & ->).
  unfold os_open_wb in Hopen. destruct (open_fault env); [done|].
  injection Hopen as <-.
  apply save_chunks_exit in Hsave as (-> & Hle & ->); [|done].
  by rewrite N.add_0_l in *.
Qed.

Lemma upload_file_raised_disk env file expires_in w e w' storage_path :
  upload_file env file expires_in w = (Raise e, w') →
  select_storage_path (db w) = Some storage_path →
  (∀ other, other ≠ os_path_join storage_path (uuid4 env) →
            disk w' !! other = disk w !! other) ∧
  (disk w !! os_path_join storage_path (uuid4 env) = None →
   ∀ sz, disk w' !! os_path_join storage_path (uuid4 env) = Some sz →
         (sz ≤ MAX_FILE_SIZE)%N).
Proof.
  intros Hup Hsel. unfold upload_file in Hup. rewrite Hsel in Hup.
  assert ((∀ other, other ≠ os_path_join storage_path (uuid4 env) →
                    disk w !! other = disk w !! other) ∧
          (disk w !! os_path_join storage_path (uuid4 env) = None →
           ∀ sz, disk w !! os_path_join storage_path (uuid4 env) = Some sz →
                 (sz ≤ MAX_FILE_SIZE)%N)) as Hsame.
  { split; [done|]. intros Hnone sz. by rewrite Hnone. }
  destruct (declared_too_large file); [by injection Hup as _ <-|].
  destruct (datetime_add_seconds _ _); [|by injection Hup as _ <-].
  unfold os_open_wb in Hup. destruct (open_fault env); [by injection Hup as _ <-|].
  destruct (save_chunks _ _ _ _ _ _) as [exit dsk'] eqn:Hsave.
  apply save_chunks_exit in Hsave; [|done].
  destruct exit as [sz| |msg]; [done| |]; injection Hup as _ <-; simpl.
  - subst dsk'. split.
    + intros other Hne. by rewrite lookup_delete_ne.
    + intros _ sz. by rewrite lookup_delete_eq.
  - destruct Hsave as (sz & Hle & ->). split.
    + intros other Hne. by rewrite lookup_insert_ne.
    + intros _ sz'. rewrite lookup_insert_eq. by intros [= <-].
Qed.

(** X1.  A successful upload stores what was streamed: the size in the
    response is the length of the stream, which is within the limit; the
    volume gains exactly one file, at volume/handle, of that size; the
    store gains the record of that handle with that size, volume, name and
    content type; and the records of all other handles are as before. *)
Theorem upload_stores_the_stream env file expires_in w r w' :
  upload_file env file expires_in w = (Return r, w') →
  ur_id r = uuid4 env ∧
  ur_size r = streamed_length (body file) ∧
  (ur_size r ≤ MAX_FILE_SIZE)%N ∧
  disk w' = <[os_path_join (ur_storage_location r) (ur_id r) := ur_size r]> (disk w) ∧
  (∃ data,
     get_file (db w') (ur_id r) = Some data ∧
     fd_id data = ur_id r ∧ fd_size data = ur_size r ∧
     fd_storage_path data = ur_storage_location r ∧
     fd_original_name data = filename file ∧
     fd_content_type data = uf_content_type file) ∧
  ∀ other, other ≠ ur_id r → get_file (db w') other = get_file (db w) other.
Proof.
  intros Hup. pose proof (upload_file_created_disk _ _ _ _ _ _ Hup) as (Hsz & Hle & Hdisk).
  apply upload_file_created in Hup
    as (sp & ex & dsk & sz & _ & _ & _ & _ & _ & Hdb & Hid & Hloc & _ & Hrsz).
  split; [done|]. split; [done|]. split; [done|]. split; [done|]. split.
  - exists (new_record env file sp ex sz). rewrite Hdb, Hid. unfold get_file. simpl.
    by rewrite dict_get_set_eq.
  - intros other Hne. rewrite Hdb. unfold get_file. simpl.
    apply dict_get_set_ne. congruence.
Qed.

Lemma second_upload_answer :
  upload_file second_upload report_txt 3600 world_1 = (Return second_response, world_2).
Proof. vm_compute. reflexivity. Defined.

Lemma upload_stores_the_stream_witness :
  upload_file second_upload report_txt 3600 world_1 = (Return second_response, world_2) ∧
  ur_id second_response = "f-0002" ∧
  ur_size second_response = streamed_length [8192%N; 10%N] ∧
  (ur_size second_response ≤ MAX_FILE_SIZE)%N ∧
  disk world_2 = <["/storage2/f-0002" := 8202%N]> (disk world_1) ∧
  (∃ data,
     get_file (db world_2) "f-0002" = Some data ∧
     fd_id data = "f-0002" ∧ fd_size data = 8202%N ∧
     fd_storage_path data = "/storage2" ∧
     fd_original_name data = Some "report.txt" ∧
     fd_content_type data = Some "text/plain") ∧
  ∀ other, other ≠ "f-0002" → get_file (db world_2) other = get_file (db world_1) other.
Proof.
  split; [exact second_upload_answer|].
  exact (upload_stores_the_stream second_upload report_txt 3600 world_1
           second_response world_2 second_upload_answer).
Defined.

(** X2.  A successful upload can be read back: until the expiry instant
    has passed, a download of the new handle is answered with the file at
    volume/handle under the uploaded name and content type, and an
    inspection reports the length of the stream. *)
Theorem upload_then_download env file expires_in w r w' now :
  upload_file env file expires_in w = (Return r, w') →
  ¬ ur_expires_at r < now →
  download_file now (ur_id r) w' =
    Return {| fr_path := os_path_join (ur_storage_location r) (ur_id r);
              fr_filename := filename file;
              fr_media_type := uf_content_type file |} ∧
  ∃ info,
    get_file_info now (ur_id r) w' = Return info ∧
    fi_size info = streamed_length (body file) ∧
    fi_storage_location info = ur_storage_location r ∧
    fi_expires_at info = ur_expires_at r ∧
    fi_expired info = bool_decide (ur_expires_at r = now).
Proof.
  intros Hup Hlive. pose proof (upload_file_created_disk _ _ _ _ _ _ Hup) as (Hsz & _ & Hdisk).
  apply upload_file_created in Hup
    as (sp & ex & dsk & sz & _ & _ & _ & _ & _ & Hdb & Hid & Hloc & Hex & Hrsz).
  assert (get_file (db w') (ur_id r) = Some (new_record env file sp ex sz)) as Hget.
  { rewrite Hdb, Hid. unfold get_file. simpl. by rewrite dict_get_set_eq. }
  split.
  - unfold download_file. rewrite Hget. simpl. rewrite <- Hex, decide_False by done.
    unfold os_path_exists. rewrite Hdisk, Hloc, lookup_insert_eq.
    by rewrite bool_decide_eq_true_2 by by eexists.
  - unfold get_file_info. rewrite Hget. eexists. split; [done|]. simpl.
    rewrite <- Hsz, Hrsz, Hloc, Hex. repeat split; [done..|].
    apply bool_decide_ext. lia.
Qed.

Lemma upload_then_download_witness :
  upload_file second_upload report_txt 3600 world_1 = (Return second_response, world_2) ∧
  ¬ at_09_00_00 < at_08_30_00 ∧
  download_file at_08_30_00 "f-0002" world_2 =
    Return {| fr_path := "/storage2/f-0002";
              fr_filename := Some "report.txt";
              fr_media_type := Some "text/plain" |} ∧
  ∃ info,
    get_file_info at_08_30_00 "f-0002" world_2 = Return info ∧
    fi_size info = streamed_length [8192%N; 10%N] ∧
    fi_storage_location info = "/storage2" ∧
    fi_expires_at info = at_09_00_00 ∧
    fi_expired info = bool_decide (at_09_00_00 = at_08_30_00).
Proof.
  assert (¬ at_09_00_00 < at_08_30_00) as Hlive by (by vm_compute).
  split; [exact second_upload_answer|]. split; [exact Hlive|].
  exact (upload_then_download second_upload report_txt 3600 world_1
           second_response world_2 at_08_30_00 second_upload_answer Hlive).
Defined.

(** X3.  An upload that is refused, for whatever reason, leaves the store
    as it was and touches no path of the volumes but the one of its own
    handle; and on that path, when it held no file before, it leaves at most
    a file within the size limit. *)
Theorem upload_refused_is_contained env file expires_in w e w' :
  upload_file env file expires_in w = (Raise e, w') →
  db w' = db w ∧
  ∃ storage_path,
    select_storage_path (db w) = Some storage_path ∧
    (∀ other, other ≠ os_path_join storage_path (uuid4 env) →
              disk w' !! other = disk w !! other) ∧
    (disk w !! os_path_join storage_path (uuid4 env) = None →
     ∀ sz, disk w' !! os_path_join storage_path (uuid4 env) = Some sz →
           (sz ≤ MAX_FILE_SIZE)%N).
Proof.
  intros Hup. split; [by apply upload_file_raised in Hup|].
  destruct (select_storage_path_total (db w)) as [sp Hsel].
  exists sp. split; [done|]. by apply (upload_file_raised_disk env file expires_in w e).
Qed.

Lemma disk_full_answer :
  upload_file disk_full_at_second_write two_chunks 60 world_1 =
    (Raise (storage_error "[Errno 28] No space left on device"),
     {| db := db world_1; disk := <["/storage2/f-0002" := 8192%N]> (disk world_1) |}).
Proof. vm_compute. reflexivity. Defined.

Lemma upload_refused_is_contained_witness :
  let w' := {| db := db world_1;
               disk := <["/storage2/f-0002" := 8192%N]> (disk world_1) |} in
  upload_file disk_full_at_second_write two_chunks 60 world_1 =
    (Raise (storage_error "[Errno 28] No space left on device"), w') ∧
  db w' = db world_1 ∧
  ∃ storage_path,
    select_storage_path (db world_1) = Some storage_path ∧
    (∀ other, other ≠ os_path_join storage_path "f-0002" →
              disk w' !! other = disk world_1 !! other) ∧
    (disk world_1 !! os_path_join storage_path "f-0002" = None →
     ∀ sz, disk w' !! os_path_join storage_path "f-0002" = Some sz →
           (sz ≤ MAX_FILE_SIZE)%N).
Proof.
  intros w'. split; [exact disk_full_answer|].
  exact (upload_refused_is_contained disk_full_at_second_write two_chunks 60 world_1
           _ w' disk_full_answer).
Defined.

(** A stream within the limit is saved whole when the system accepts the
    writes: no unlink is attempted. *)
Lemma save_chunks_within_limit env file_path chunks : ∀ k file_size base,
  (∀ i, write_fault env i = None) →
  (file_size + streamed_length chunks ≤ MAX_FILE_SIZE)%N →
  save_chunks env file_path chunks k file_size (<[file_path := file_size]> base) =
    (Saved (file_size + streamed_length chunks)%N,
     <[file_path := (file_size + streamed_length chunks)%N]> base).
Proof.
  induction chunks as [|c rest IH]; intros k sz base Hw Hle; simpl in *.
  - by rewrite N.add_0_r.
  - destruct (decide (c = 0%N)) as [->|Hc]; [by rewrite N.add_0_r|].
    rewrite decide_False by lia.
    unfold os_write. rewrite Hw, alter_insert_eq.
    rewrite IH by (done || lia). by rewrite N.add_assoc.
Qed.

(** What an upload needs to be accepted: a declared size that passes line
    111, an expiry date that [datetime] can hold, a file that opens, writes
    that the system accepts and a stream within the limit. *)
Lemma upload_file_accepted env file expires_in w expires_at :
  declared_too_large file = false →
  datetime_add_seconds (utcnow_121 env) expires_in = Some expires_at →
  open_fault env = None → (∀ i, write_fault env i = None) →
  (streamed_length (body file) ≤ MAX_FILE_SIZE)%N →
  ∃ r w',
    upload_file env file expires_in w = (Return r, w') ∧
    ur_id r = uuid4 env ∧ ur_expires_at r = expires_at ∧
    ur_size r = streamed_length (body file).
Proof.
  intros Hdecl Hexp Hopen Hwrite Hle.
  destruct (select_storage_path_total (db w)) as [sp Hsel].
  unfold upload_file. rewrite Hdecl, Hsel, Hexp. unfold os_open_wb. rewrite Hopen.
  rewrite save_chunks_within_limit by (done || by rewrite N.add_0_l).
  rewrite N.add_0_l. by do 2 eexists.
Qed.

(** X4.  The time to live is not checked for sign: an upload with a zero or
    negative number of seconds is accepted under the conditions of any
    other upload (the declared size passes, the file opens, the writes are
    accepted, the stream is within the limit), as long as the expiry date,
    which is then not after the first clock reading of the request, does
    not fall before year 1.  The object it creates is past its expiry at
    every instant after that clock reading: a download is answered 410 and
    an inspection reports it expired with no time remaining. *)
Theorem upload_without_time_to_live env file expires_in w now :
  expires_in ≤ 0 →
  0 ≤ utcnow_121 env + expires_in * 1000000 →
  utcnow_121 env ≤ DATETIME_MAX →
  declared_too_large file = false →
  open_fault env = None → (∀ i, write_fault env i = None) →
  (streamed_length (body file) ≤ MAX_FILE_SIZE)%N →
  utcnow_121 env < now →
  ∃ r w',
    upload_file env file expires_in w = (Return r, w') ∧
    ur_expires_at r = utcnow_121 env + expires_in * 1000000 ∧
    ur_expires_at r ≤ utcnow_121 env ∧
    download_file now (ur_id r) w' = Raise gone ∧
    ∃ info,
      get_file_info now (ur_id r) w' = Return info ∧
      fi_expired info = true ∧ fi_remaining_microseconds info = 0.
Proof.
  intros Httl Hlow Hclock Hdecl Hopen Hwrite Hle Hnow.
  assert (datetime_add_seconds (utcnow_121 env) expires_in
            = Some (utcnow_121 env + expires_in * 1000000)) as Hexp.
  { unfold datetime_add_seconds. simpl. rewrite decide_True; [done|lia]. }
  destruct (upload_file_accepted env file expires_in w _ Hdecl Hexp Hopen Hwrite Hle)
    as (r & w' & Hup & Hid & Hex & _).
  exists r, w'. split; [done|]. split; [done|]. split; [lia|].
  apply upload_file_created in Hup
    as (sp & ex & dsk & sz & _ & _ & Hex' & _ & _ & Hdb & _).
  assert (ex = utcnow_121 env + expires_in * 1000000) as -> by congruence.
  assert (get_file (db w') (ur_id r)
            = Some (new_record env file sp (utcnow_121 env + expires_in * 1000000) sz))
    as Hget.
  { rewrite Hdb, Hid. unfold get_file. simpl. by rewrite dict_get_set_eq. }
  split.
  - unfold download_file. rewrite Hget. simpl. rewrite decide_True; [done|lia].
  - unfold get_file_info. rewrite Hget. eexists. split; [done|]. simpl. split.
    + apply bool_decide_eq_true. lia.
    + lia.
Qed.

(** An upload like the second, asked to keep the object for minus one hour:
    it is accepted, with an expiry of 07:00:00, and refused to a download a
    second after the request. *)
Lemma upload_without_time_to_live_witness :
  -3600 ≤ 0 ∧
  0 ≤ at_08_00_00 + -3600 * 1000000 ∧
  at_08_00_00 ≤ DATETIME_MAX ∧
  declared_too_large report_txt = false ∧
  (streamed_length (body report_txt) ≤ MAX_FILE_SIZE)%N ∧
  at_08_00_00 < at_08_00_01 ∧
  ∃ r w',
    upload_file second_upload report_txt (-3600) world_1 = (Return r, w') ∧
    ur_expires_at r = at_08_00_00 + -3600 * 1000000 ∧
    ur_expires_at r ≤ at_08_00_00 ∧
    download_file at_08_00_01 (ur_id r) w' = Raise gone ∧
    ∃ info,
      get_file_info at_08_00_01 (ur_id r) w' = Return info ∧
      fi_expired info = true ∧ fi_remaining_microseconds info = 0.
Proof.
  assert (-3600 ≤ 0) as Httl by lia.
  assert (0 ≤ at_08_00_00 + -3600 * 1000000) as Hlow by (vm_compute; discriminate).
  assert (at_08_00_00 ≤ DATETIME_MAX) as Hclock by (vm_compute; discriminate).
  assert (streamed_length (body report_txt) ≤ MAX_FILE_SIZE)%N as Hle
    by (vm_compute; discriminate).
  assert (at_08_00_00 < at_08_00_01) as Hlater by reflexivity.
  split; [exact Httl|]. split; [exact Hlow|]. split; [exact Hclock|].
  split; [reflexivity|]. split; [exact Hle|]. split; [exact Hlater|].
  exact (upload_without_time_to_live second_upload report_txt (-3600) world_1
           at_08_00_01 Httl Hlow Hclock eq_refl eq_refl (λ _, eq_refl) Hle Hlater).
Defined.



(** ** What the store holds *)

Lemma select_storage_path_configured d storage_path :
  select_storage_path d = Some storage_path → storage_path ∈ STORAGE_PATHS.
Proof.
  intros Hsel.
  destruct (select_storage_path_from_spec STORAGE_PATHS d STORAGE_PATHS_NoDup)
    as (before & p & after & Hsplit & Hsel' & _); [done|].
  unfold select_storage_path in Hsel. assert (p = storage_path) as -> by congruence.
  rewrite Hsplit. apply elem_of_app. right. by apply elem_of_cons; left.
Qed.

Lemma sum_values_insert (st : gmap string Z) k n :
  sum_values (<[k := n]> st) = sum_values st - stats_get st k + n.
Proof.
  unfold sum_values, stats_get. destruct (st !! k) as [m|] eqn:Hk; simpl.
  - rewrite <- (insert_delete_eq st k n).
    rewrite map_fold_insert_L; [| intros; lia | apply lookup_delete_eq].
    rewrite (map_fold_delete_L _ 0 k m st); [lia | intros; lia | done].
  - rewrite map_fold_insert_L; [lia | intros; lia | done].
Qed.

Lemma sum_values_delete (st : gmap string Z) k :
  sum_values (delete k st) = sum_values st - stats_get st k.
Proof.
  unfold sum_values, stats_get. destruct (st !! k) as [m|] eqn:Hk; simpl.
  - rewrite (map_fold_delete_L _ 0 k m st); [lia | intros; lia | done].
  - rewrite delete_id by done. lia.
Qed.

Lemma dict_del_length {V} (d : list (string * V)) k v :
  dict_get d k = Some v → S (length (dict_del d k)) = length d.
Proof.
  induction d as [|[k' v'] r IH]; simpl; [done|].
  case_decide; [done|]. intros Hget. simpl. by rewrite IH.
Qed.

Lemma add_file_get d file_id data other :
  get_file (add_file d file_id data) other =
  if decide (file_id = other) then Some data else get_file d other.
Proof.
  unfold get_file. simpl. case_decide as Heq.
  - subst. apply dict_get_set_eq.
  - by apply dict_get_set_ne.
Qed.

Lemma add_file_store_kept d file_id data :
  store_kept d → get_file d file_id = None →
  fd_id data = file_id → fd_storage_path data ∈ STORAGE_PATHS →
  (fd_size data ≤ MAX_FILE_SIZE)%N → 0 ≤ fd_expires_at data ≤ DATETIME_MAX →
  store_kept (add_file d file_id data).
Proof.
  intros (Hc & Hsound & Hpos & Hsum) Hfresh Hid Hsp Hsz Hex.
  split; [by apply add_file_consistent|]. split; [|split].
  - intros other data'. rewrite add_file_get. case_decide; [|by apply Hsound].
    intros [= <-]. subst. done.
  - intros v n. simpl. rewrite lookup_insert. case_decide; [|by apply Hpos].
    intros [= <-]. subst v. split; [|done].
    unfold stats_get. destruct (stats d !! _) as [m|] eqn:Hm; simpl; [|lia].
    apply Hpos in Hm. lia.
  - simpl. rewrite sum_values_insert, Hsum, dict_set_fresh by done.
    rewrite length_app. simpl. lia.
Qed.

Lemma delete_file_store_kept d file_id :
  store_kept d → store_kept (delete_file d file_id).2.
Proof.
  intros (Hc & Hsound & Hpos & Hsum).
  split; [by apply delete_file_consistent|].
  destruct (get_file d file_id) as [data|] eqn:Hget;
    [|by rewrite delete_file_absent].
  split; [|split].
  - intros other data'. destruct (decide (file_id = other)) as [<-|Hne].
    + by rewrite delete_file_get by apply Hc.
    + rewrite delete_file_get_ne by done. by apply Hsound.
  - unfold get_file in Hget. unfold delete_file. rewrite Hget. simpl.
    destruct (stats d !! fd_storage_path data) as [n|] eqn:Hn; [|done].
    case_decide; intros v m; simpl.
    + rewrite lookup_delete. case_decide; [done|]. by apply Hpos.
    + rewrite lookup_insert. case_decide; [|by apply Hpos].
      intros [= <-]. subst v. apply Hpos in Hn. split; [lia|]. apply Hn.
  - pose proof (count_on_positive _ _ _ Hget) as Hone.
    destruct Hc as [_ Hcnt]. rewrite <- Hcnt in Hone.
    unfold get_file in Hget. unfold delete_file. rewrite Hget. simpl.
    rewrite <- (dict_del_length _ _ _ Hget) in Hsum.
    unfold stats_get in Hone.
    destruct (stats d !! fd_storage_path data) as [n|] eqn:Hn; simpl in Hone; [|lia].
    case_decide.
    + rewrite sum_values_delete. unfold stats_get. rewrite Hn. simpl. lia.
    + rewrite sum_values_insert. unfold stats_get. rewrite Hn. simpl. lia.
Qed.

Lemma upload_file_store_kept env file expires_in w :
  get_file (db w) (uuid4 env) = None →
  store_kept (db w) → store_kept (db (upload_file env file expires_in w).2).
Proof.
  intros Hfresh Hkept.
  destruct (upload_file env file expires_in w) as [[r|e] w'] eqn:Hup; simpl.
  - apply upload_file_created in Hup
      as (sp & ex & dsk & sz & _ & Hsel & Hex & _ & Hsave & -> & _).
    apply add_file_store_kept; simpl; [done..| | |].
    + by apply (select_storage_path_configured (db w)).
    + by apply save_chunks_Saved in Hsave as [_ Hle].
    + unfold datetime_add_seconds in Hex. case_decide; [|done]. by injection Hex as <-.
  - by apply upload_file_raised in Hup as ->.
Qed.

Lemma cleanup_loop_store_kept faults ids : ∀ w,
  store_kept (db w) → store_kept (db (foldl (cleanup_one faults) w ids)).
Proof.
  induction ids as [|i ids IH]; intros w Hkept; simpl; [done|].
  apply IH. rewrite cleanup_one_db. by apply delete_file_store_kept.
Qed.

Lemma reachable_store_kept w : reachable w → store_kept (db w).
Proof.
  induction 1 as [|w w' _ IH Hstep].
  - split; [apply empty_db_consistent|]. split; [|split].
    + by intros file_id data.
    + intros v n. simpl. by rewrite lookup_empty.
    + done.
  - destruct Hstep as [env file expires_in w Hfresh | fault file_id w | now faults w].
    + by apply upload_file_store_kept.
    + rewrite delete_file_handler_db. by apply delete_file_store_kept.
    + by apply cleanup_loop_store_kept.
Qed.

(** X6.  In every reachable world each record is sound: it carries its own
    handle as [id], it sits on one of the configured volumes, its size is
    within [MAX_FILE_SIZE], and its expiry is an instant between year 1 and
    year 9999. *)
Theorem records_are_sound w file_id data :
  reachable w →
  get_file (db w) file_id = Some data →
  fd_id data = file_id ∧
  fd_storage_path data ∈ STORAGE_PATHS ∧
  (fd_size data ≤ MAX_FILE_SIZE)%N ∧
  0 ≤ fd_expires_at data ≤ DATETIME_MAX.
Proof.
  intros Hreach Hget. apply reachable_store_kept in Hreach as (_ & Hsound & _).
  by apply Hsound.
Qed.

Lemma records_are_sound_witness :
  reachable world_2 ∧
  get_file (db world_2) "f-0002" = Some second_record ∧
  fd_id second_record = "f-0002" ∧
  fd_storage_path second_record ∈ STORAGE_PATHS ∧
  (fd_size second_record ≤ MAX_FILE_SIZE)%N ∧
  0 ≤ fd_expires_at second_record ≤ DATETIME_MAX.
Proof.
  split; [exact world_2_reachable|]. split; [reflexivity|].
  exact (records_are_sound world_2 "f-0002" second_record world_2_reachable eq_refl).
Defined.

(** X7.  In every reachable world the counters hold exactly the volumes
    that have records: a volume with records has an entry, which is their
    number, and is a configured volume; a volume without records has no
    entry (never a zero or negative one). *)
Theorem counters_hold_occupied_volumes w v :
  reachable w →
  stats (db w) !! v =
    (if decide (0 < count_on v (files (db w)))
     then Some (count_on v (files (db w))) else None) ∧
  (is_Some (stats (db w) !! v) → v ∈ STORAGE_PATHS).
Proof.
  intros Hreach. apply reachable_store_kept in Hreach as ([_ Hcnt] & _ & Hpos & _).
  specialize (Hcnt v). unfold stats_get in Hcnt. split.
  - destruct (stats (db w) !! v) as [n|] eqn:Hn; simpl in Hcnt.
    + apply Hpos in Hn as [Hn _]. rewrite <- Hcnt. by rewrite decide_True by lia.
    + rewrite <- Hcnt. by rewrite decide_False by lia.
  - intros [n Hn]. exact (proj2 (Hpos v n Hn)).
Qed.

Lemma world_after_delete_reachable :
  reachable (delete_file_handler None "f-0001" world_2).2.
Proof. eapply reachable_step; [exact world_2_reachable | apply step_delete]. Defined.

Lemma counters_hold_occupied_volumes_witness :
  let w := (delete_file_handler None "f-0001" world_2).2 in
  reachable w ∧
  count_on "/storage" (files (db w)) = 0 ∧
  stats (db w) !! "/storage" = None ∧
  stats (db w) !! "/storage2" = Some 1.
Proof.
  intros w.
  destruct (counters_hold_occupied_volumes w "/storage" world_after_delete_reachable)
    as [Hfirst _].
  destruct (counters_hold_occupied_volumes w "/storage2" world_after_delete_reachable)
    as [Hsecond _].
  split; [exact world_after_delete_reachable|]. split; [reflexivity|].
  split; [exact Hfirst | exact Hsecond].
Defined.

(** ** Statistics *)

Lemma used_percent_exact used total :
  0 < total →
  ((if decide (0 < total)%Z then inject_Z used / inject_Z total * 100 else 0)
   * inject_Z total == inject_Z used * 100)%Q.
Proof.
  intros Hpos. rewrite decide_True by done. field. intros Hz.
  unfold Qeq in Hz. simpl in Hz. lia.
Qed.

Lemma used_percent_bounds used total :
  0 ≤ used ≤ total →
  (0 <= (if decide (0 < total)%Z then inject_Z used / inject_Z total * 100 else 0)
   <= 100)%Q.
Proof.
  intros Hused. case_decide; [|done].
  unfold Qle, Qdiv, Qmult, Qinv, inject_Z; simpl. destruct total; try lia. simpl. nia.
Qed.

Lemma storage_info_of_path statvfs st path :
  storage_info_path (storage_info_of statvfs st path) = path.
Proof. unfold storage_info_of. by destruct (statvfs path). Qed.

(** X8.  In every reachable world the statistics report as [total_files]
    the number of records of the store, list the configured volumes in
    their order of declaration, one item each, and repeat the two policy
    constants. *)
Theorem get_stats_totals statvfs w :
  reachable w →
  sr_total_files (get_stats statvfs w) = Z.of_nat (length (files (db w))) ∧
  map storage_info_path (sr_storage (get_stats statvfs w)) = STORAGE_PATHS ∧
  sr_max_file_size (get_stats statvfs w) = MAX_FILE_SIZE ∧
  sr_default_expiry (get_stats statvfs w) = DEFAULT_EXPIRY.
Proof.
  intros Hreach. apply reachable_store_kept in Hreach as (_ & _ & _ & Hsum).
  split; [done|]. split; [|done]. cbn [get_stats sr_storage]. rewrite map_map.
  rewrite <- (map_id STORAGE_PATHS) at 2. apply map_ext.
  intros path. apply storage_info_of_path.
Qed.

Lemma get_stats_totals_witness :
  let statvfs : string → option statvfs_result := λ _, None in
  reachable world_2 ∧
  sr_total_files (get_stats statvfs world_2) = 2 ∧
  map storage_info_path (sr_storage (get_stats statvfs world_2))
    = ["/storage"; "/storage2"; "/storage3"] ∧
  sr_max_file_size (get_stats statvfs world_2) = MAX_FILE_SIZE ∧
  sr_default_expiry (get_stats statvfs world_2) = DEFAULT_EXPIRY.
Proof.
  intros statvfs. split; [exact world_2_reachable|].
  exact (get_stats_totals statvfs world_2 world_2_reachable).
Defined.

(** X9.  In every reachable world the statistics report each configured
    volume on its own: a volume that the system cannot examine gets an item
    with the error "Storage path not accessible" and the other volumes are
    reported all the same; a volume that it can examine gets the number of
    its records, a total and a free size that are the block counts times the
    block size, a used size that is their difference, and as percentage the
    used size over the total times 100, or 0 for an empty total; with no
    more free blocks than blocks, the percentage lies between 0 and 100. *)
Theorem get_stats_volume statvfs w path :
  reachable w →
  path ∈ STORAGE_PATHS →
  match statvfs path with
  | None =>
      VolumeError path "Storage path not accessible"
        ∈ sr_storage (get_stats statvfs w)
  | Some usage =>
      let total := Z.of_N (f_frsize usage * f_blocks usage) in
      let free := Z.of_N (f_frsize usage * f_bfree usage) in
      ∃ percent,
        VolumeUsage path (count_on path (files (db w))) total (total - free) free
          percent ∈ sr_storage (get_stats statvfs w) ∧
        (0 < total → (percent * inject_Z total == inject_Z (total - free) * 100)%Q) ∧
        (total = 0 → percent = 0%Q) ∧
        ((f_bfree usage ≤ f_blocks usage)%N → (0 <= percent <= 100)%Q)
  end.
Proof.
  intros Hreach Hpath. apply reachable_consistent in Hreach as [_ Hcnt].
  assert (storage_info_of statvfs (stats (db w)) path
            ∈ sr_storage (get_stats statvfs w)) as Hin.
  { cbn [get_stats sr_storage]. unfold get_storage_stats.
    apply list_elem_of_In, in_map, list_elem_of_In, Hpath. }
  unfold storage_info_of in Hin. destruct (statvfs path) as [usage|]; [|done].
  simpl. eexists. rewrite <- Hcnt. split; [exact Hin|]. split; [|split].
  - apply used_percent_exact.
  - intros ->. done.
  - intros Hfree. apply used_percent_bounds. nia.
Qed.

Lemma get_stats_volume_witness :
  reachable world_2 ∧
  "/storage" ∈ STORAGE_PATHS ∧ "/storage2" ∈ STORAGE_PATHS ∧
  VolumeError "/storage2" "Storage path not accessible"
    ∈ sr_storage (get_stats sample_statvfs world_2) ∧
  ∃ percent,
    VolumeUsage "/storage" (count_on "/storage" (files (db world_2)))
      4096000000 (4096000000 - 1024000000) 1024000000 percent
      ∈ sr_storage (get_stats sample_statvfs world_2) ∧
    (percent * inject_Z 4096000000 == inject_Z (4096000000 - 1024000000) * 100)%Q ∧
    (0 <= percent <= 100)%Q.
Proof.
  assert ("/storage" ∈ STORAGE_PATHS) as Hfirst by (apply elem_of_cons; by left).
  assert ("/storage2" ∈ STORAGE_PATHS) as Hsecond
    by (apply elem_of_cons; right; apply elem_of_cons; by left).
  split; [exact world_2_reachable|]. split; [exact Hfirst|]. split; [exact Hsecond|].
  split.
  - exact (get_stats_volume sample_statvfs world_2 "/storage2" world_2_reachable Hsecond).
  - destruct (get_stats_volume sample_statvfs world_2 "/storage" world_2_reachable Hfirst)
      as (percent & Hin & Hexact & _ & Hbounds).
    exists percent. split; [exact Hin|]. split.
    + apply Hexact. reflexivity.
    + apply Hbounds. by vm_compute.
Defined.

(** ** Placement keeps the volumes level *)

Lemma select_storage_path_least d storage_path q :
  select_storage_path d = Some storage_path → q ∈ STORAGE_PATHS →
  stats_get (stats d) storage_path ≤ stats_get (stats d) q.
Proof.
  intros Hsel Hq.
  destruct (select_storage_path_from_spec STORAGE_PATHS d STORAGE_PATHS_NoDup)
    as (before & p & after & Hsplit & Hsel' & Hbefore & Hafter); [done|].
  unfold select_storage_path in Hsel. assert (p = storage_path) as -> by congruence.
  rewrite Hsplit in Hq. apply elem_of_app in Hq as [Hq|Hq].
  - specialize (Hbefore q Hq). lia.
  - apply elem_of_cons in Hq as [->|Hq]; [lia | by apply Hafter].
Qed.

(** X10.  A successful upload goes to a volume that no configured volume
    undercuts, and keeps the volumes level: if before it no configured
    volume held two objects more than another, the same is true after it. *)
Theorem upload_keeps_volumes_level env file expires_in w r w' :
  balanced (stats (db w)) →
  upload_file env file expires_in w = (Return r, w') →
  (∀ q, q ∈ STORAGE_PATHS →
        stats_get (stats (db w)) (ur_storage_location r) ≤ stats_get (stats (db w)) q) ∧
  balanced (stats (db w')).
Proof.
  intros Hbal Hup.
  apply upload_file_created in Hup
    as (sp & ex & dsk & sz & _ & Hsel & _ & _ & _ & Hdb & _ & Hloc & _).
  rewrite Hloc.
  assert (∀ q, q ∈ STORAGE_PATHS →
               stats_get (stats (db w)) sp ≤ stats_get (stats (db w)) q) as Hleast
    by (intros q; by apply select_storage_path_least).
  split; [done|]. intros p q Hp Hq. rewrite Hdb, !add_file_stats. simpl.
  specialize (Hbal p q Hp Hq). pose proof (Hleast q Hq). pose proof (Hleast p Hp).
  pose proof (Hbal) as Hpq. specialize (Hleast q Hq).
  repeat case_decide; subst; lia.
Qed.

Lemma world_1_balanced : balanced (stats (db world_1)).
Proof.
  intros p q Hp Hq.
  repeat (apply elem_of_cons in Hp as [->|Hp]); [..|by apply elem_of_nil in Hp];
    repeat (apply elem_of_cons in Hq as [->|Hq]); try (by apply elem_of_nil in Hq);
    by vm_compute.
Defined.

Lemma upload_keeps_volumes_level_witness :
  balanced (stats (db world_1)) ∧
  upload_file second_upload report_txt 3600 world_1 = (Return second_response, world_2) ∧
  (∀ q, q ∈ STORAGE_PATHS →
        stats_get (stats (db world_1)) "/storage2" ≤ stats_get (stats (db world_1)) q) ∧
  balanced (stats (db world_2)).
Proof.
  split; [exact world_1_balanced|]. split; [exact second_upload_answer|].
  exact (upload_keeps_volumes_level second_upload report_txt 3600 world_1
           second_response world_2 world_1_balanced second_upload_answer).
Defined.

(** ** More on the sweep *)

Lemma filter_filter_nil {A} (P Q : A → bool) (l : list A) :
  (∀ x, P x = true → Q x = true) →
  List.filter P (List.filter (λ x, negb (Q x)) l) = [].
Proof.
  intros HPQ. induction l as [|x l IH]; simpl; [done|].
  destruct (Q x) eqn:HQ; simpl; [done|].
  destruct (P x) eqn:HP; [|done]. apply HPQ in HP. congruence.
Qed.

(** X11.  After a sweep, a further sweep at the same or an earlier instant
    changes nothing: it selects no record, whatever the system would do. *)
Theorem sweep_again_changes_nothing now now' faults faults' w :
  reachable w →
  now' ≤ now →
  get_expired_files (db (cleanup_expired_files now faults w)) now' = [] ∧
  cleanup_expired_files now' faults' (cleanup_expired_files now faults w)
    = cleanup_expired_files now faults w.
Proof.
  intros Hreach Hnow. apply reachable_consistent in Hreach as Hc.
  destruct (cleanup_expired_files_db now faults w Hc) as [Hfiles _].
  assert (get_expired_files (db (cleanup_expired_files now faults w)) now' = [])
    as Hnone.
  { unfold get_expired_files. rewrite Hfiles, filter_filter_nil; [done|].
    intros kv. unfold is_expired. rewrite !bool_decide_eq_true. lia. }
  split; [done|]. unfold cleanup_expired_files at 1. by rewrite Hnone.
Qed.

Lemma sweep_again_changes_nothing_witness :
  let quiet : string → os_fault := λ _, None in
  reachable world_2 ∧ at_09_00_00 ≤ at_12_00_00 ∧
  get_expired_files (db (cleanup_expired_files at_12_00_00 quiet world_2)) at_09_00_00
    = [] ∧
  cleanup_expired_files at_09_00_00 (λ _, refused)
    (cleanup_expired_files at_12_00_00 quiet world_2)
    = cleanup_expired_files at_12_00_00 quiet world_2.
Proof.
  intros quiet.
  assert (at_09_00_00 ≤ at_12_00_00) as Hnow by (by vm_compute).
  split; [exact world_2_reachable|]. split; [exact Hnow|].
  exact (sweep_again_changes_nothing at_12_00_00 at_09_00_00 quiet (λ _, refused)
           world_2 world_2_reachable Hnow).
Defined.

(** X12.  A record is selected by the sweep exactly when a download of its
    handle at the same instant is answered 410. *)
Theorem sweep_selects_what_download_refuses now w file_id :
  reachable w →
  file_id ∈ get_expired_files (db w) now ↔ download_file now file_id w = Raise gone.
Proof.
  intros Hreach. apply reachable_consistent in Hreach as [Hnd _].
  rewrite get_expired_files_spec by done. unfold download_file. split.
  - intros (data & -> & Hlt). by rewrite decide_True.
  - destruct (get_file (db w) file_id) as [data|]; [|done].
    case_decide; [by exists data|]. by case_match.
Qed.

Lemma sweep_selects_what_download_refuses_witness :
  reachable world_2 ∧
  ("f-0002" ∈ get_expired_files (db world_2) at_12_00_00 ↔
   download_file at_12_00_00 "f-0002" world_2 = Raise gone) ∧
  "f-0002" ∈ get_expired_files (db world_2) at_12_00_00 ∧
  download_file at_12_00_00 "f-0002" world_2 = Raise gone.
Proof.
  pose proof (sweep_selects_what_download_refuses at_12_00_00 world_2 "f-0002"
                world_2_reachable) as Hiff.
  assert (download_file at_12_00_00 "f-0002" world_2 = Raise gone) as Hgone
    by reflexivity.
  split; [exact world_2_reachable|]. split; [exact Hiff|].
  split; [exact (proj2 Hiff Hgone) | exact Hgone].
Defined.

Lemma cleanup_loop_unlinks faults file_id data ids : ∀ w,
  NoDup (dict_keys (files (db w))) →
  file_id ∈ ids →
  get_file (db w) file_id = Some data →
  faults (os_path_join (fd_storage_path data) file_id) = None →
  disk (foldl (cleanup_one faults) w ids)
    !! os_path_join (fd_storage_path data) file_id = None.
Proof.
  induction ids as [|i ids IH]; intros w Hnd Hin Hget Hquiet; simpl.
  - by apply elem_of_nil in Hin.
  - destruct (decide (i = file_id)) as [->|Hne].
    + rewrite cleanup_loop_disk.
      * unfold cleanup_one. rewrite Hget. simpl. unfold remove_quietly, os_remove.
        rewrite Hquiet. destruct (disk w !! _) eqn:Hfile; [|done].
        apply lookup_delete_eq.
      * right. unfold cleanup_one. rewrite Hget. simpl. unfold remove_quietly, os_remove.
        rewrite Hquiet. destruct (disk w !! _) eqn:Hfile; [|done].
        apply lookup_delete_eq.
    + apply IH.
      * rewrite cleanup_one_db, delete_file_files. by apply dict_del_NoDup.
      * apply elem_of_cons in Hin as [?|?]; [congruence|done].
      * rewrite cleanup_one_db. by rewrite delete_file_get_ne.
      * done.
Qed.

Lemma cleanup_loop_frame faults path ids : ∀ w,
  NoDup (dict_keys (files (db w))) →
  (∀ file_id data, file_id ∈ ids → get_file (db w) file_id = Some data →
                   os_path_join (fd_storage_path data) file_id ≠ path) →
  disk (foldl (cleanup_one faults) w ids) !! path = disk w !! path.
Proof.
  induction ids as [|i ids IH]; intros w Hnd Hother; simpl; [done|].
  rewrite IH.
  - unfold cleanup_one. destruct (get_file (db w) i) as [data|] eqn:Hget; [|done].
    simpl. apply remove_quietly_other. intros Heq.
    apply (Hother i data); [apply elem_of_cons; by left | done | done].
  - rewrite cleanup_one_db, delete_file_files. by apply dict_del_NoDup.
  - intros file_id data Hin. rewrite cleanup_one_db.
    destruct (decide (i = file_id)) as [->|Hne].
    + by rewrite delete_file_get.
    + rewrite delete_file_get_ne by done. intros Hget.
      apply (Hother file_id data); [|done]. by apply elem_of_cons; right.
Qed.

(** X13.  When the system does not refuse the removal, the sweep leaves no
    file behind a record it selects; and it touches no path other than the
    files of the records it selects. *)
Theorem sweep_unlinks_what_it_selects now faults w :
  reachable w →
  (∀ file_id data,
     get_file (db w) file_id = Some data → fd_expires_at data < now →
     faults (os_path_join (fd_storage_path data) file_id) = None →
     disk (cleanup_expired_files now faults w)
       !! os_path_join (fd_storage_path data) file_id = None) ∧
  (∀ path,
     (∀ file_id data,
        get_file (db w) file_id = Some data → fd_expires_at data < now →
        os_path_join (fd_storage_path data) file_id ≠ path) →
     disk (cleanup_expired_files now faults w) !! path = disk w !! path).
Proof.
  intros Hreach. apply reachable_consistent in Hreach as [Hnd _]. split.
  - intros file_id data Hget Hlt Hquiet. unfold cleanup_expired_files.
    apply cleanup_loop_unlinks; [done| |done..].
    apply get_expired_files_spec; [done|]. by exists data.
  - intros path Hother. unfold cleanup_expired_files.
    apply cleanup_loop_frame; [done|]. intros file_id data Hin Hget.
    apply get_expired_files_spec in Hin as (data' & Hget' & Hlt); [|done].
    apply Hother; [done|]. congruence.
Qed.

Lemma sweep_unlinks_what_it_selects_witness :
  let quiet : string → os_fault := λ _, None in
  reachable world_2 ∧
  get_file (db world_2) "f-0002" = Some second_record ∧
  at_09_00_00 < at_12_00_00 ∧
  disk world_2 !! "/storage2/f-0002" = Some 8202%N ∧
  disk (cleanup_expired_files at_12_00_00 quiet world_2) !! "/storage2/f-0002" = None ∧
  disk (cleanup_expired_files at_12_00_00 quiet world_2) !! "/storage/f-0001"
    = disk world_2 !! "/storage/f-0001".
Proof.
  intros quiet.
  assert (at_09_00_00 < at_12_00_00) as Hpast by reflexivity.
  destruct (sweep_unlinks_what_it_selects at_12_00_00 quiet world_2 world_2_reachable)
    as [Hunlinked _].
  split; [exact world_2_reachable|]. split; [reflexivity|]. split; [exact Hpast|].
  split; [reflexivity|]. split.
  - exact (Hunlinked "f-0002" second_record eq_refl Hpast eq_refl).
  - reflexivity.
Defined.

(** ** Files of the objects *)

Lemma os_path_join_name v name :
  v ∈ STORAGE_PATHS → starts_with_slash name = false →
  os_path_join v name = (v ++ "/" ++ name)%string.
Proof.
  intros Hv Hname. unfold os_path_join. rewrite Hname.
  repeat (apply elem_of_cons in Hv as [->|Hv]); [done..|by apply elem_of_nil in Hv].
Qed.

Lemma os_path_join_injective v v' a b :
  v ∈ STORAGE_PATHS → v' ∈ STORAGE_PATHS →
  starts_with_slash a = false → starts_with_slash b = false →
  os_path_join v a = os_path_join v' b → v = v' ∧ a = b.
Proof.
  intros Hv Hv' Ha Hb. rewrite !os_path_join_name by done.
  repeat (apply elem_of_cons in Hv as [->|Hv]); [..|by apply elem_of_nil in Hv];
    repeat (apply elem_of_cons in Hv' as [->|Hv']);
    try (by apply elem_of_nil in Hv');
    cbv [String.append]; intros Heq; by simplify_eq.
Qed.

(** X14.  On the configured volumes the file of an object is at
    volume/handle, and two objects share a file only if they are the same
    object on the same volume, provided the handles do not begin with a
    slash (as no [uuid4] does). *)
Theorem object_files_are_distinct v v' a b :
  v ∈ STORAGE_PATHS → v' ∈ STORAGE_PATHS →
  starts_with_slash a = false → starts_with_slash b = false →
  os_path_join v a = (v ++ "/" ++ a)%string ∧
  (os_path_join v a = os_path_join v' b ↔ v = v' ∧ a = b).
Proof.
  intros Hv Hv' Ha Hb. split; [by apply os_path_join_name|]. split.
  - by apply os_path_join_injective.
  - by intros [-> ->].
Qed.

Lemma object_files_are_distinct_witness :
  "/storage" ∈ STORAGE_PATHS ∧ "/storage2" ∈ STORAGE_PATHS ∧
  starts_with_slash "f-0001" = false ∧ starts_with_slash "2/f-0001" = false ∧
  os_path_join "/storage" "f-0001" = "/storage/f-0001" ∧
  (os_path_join "/storage" "f-0001" = os_path_join "/storage2" "2/f-0001" ↔
   "/storage" = "/storage2" ∧ "f-0001" = "2/f-0001").
Proof.
  assert ("/storage" ∈ STORAGE_PATHS) as Hfirst by (apply elem_of_cons; by left).
  assert ("/storage2" ∈ STORAGE_PATHS) as Hsecond
    by (apply elem_of_cons; right; apply elem_of_cons; by left).
  split; [exact Hfirst|]. split; [exact Hsecond|].
  split; [reflexivity|]. split; [reflexivity|].
  exact (object_files_are_distinct "/storage" "/storage2" "f-0001" "2/f-0001"
           Hfirst Hsecond eq_refl eq_refl).
Defined.

Lemma reachable_with_names_reachable w : reachable_with_names w → reachable w.
Proof.
  induction 1 as [|env file expires_in w _ IH Hfresh _|fault file_id w _ IH|now faults w _ IH].
  - apply reachable_initial.
  - eapply reachable_step; [exact IH | by apply step_upload].
  - eapply reachable_step; [exact IH | apply step_delete].
  - eapply reachable_step; [exact IH | apply step_cleanup].
Qed.

Lemma stored_after_upload env file expires_in w :
  store_kept (db w) → records_stored w →
  get_file (db w) (uuid4 env) = None → starts_with_slash (uuid4 env) = false →
  records_stored (upload_file env file expires_in w).2.
Proof.
  intros (Hc & Hsound & _) Hstored Hfresh Hname.
  destruct (select_storage_path_total (db w)) as [sp Hsel].
  pose proof (select_storage_path_configured _ _ Hsel) as Hsp.
  assert (∀ other data', get_file (db w) other = Some data' →
            os_path_join (fd_storage_path data') other ≠ os_path_join sp (uuid4 env))
    as Hapart.
  { intros other data' Hget Heq. destruct (Hstored _ _ Hget) as [Hrel _].
    destruct (Hsound _ _ Hget) as (_ & Hsp' & _).
    apply os_path_join_injective in Heq as [_ ->]; [congruence|done..]. }
  destruct (upload_file env file expires_in w) as [[r|e] w'] eqn:Hup; simpl.
  - pose proof (upload_file_created_disk _ _ _ _ _ _ Hup) as (_ & _ & Hdisk).
    apply upload_file_created in Hup
      as (sp' & ex & dsk & sz & _ & Hsel' & _ & _ & _ & Hdb & Hid & Hloc & _ & Hrsz).
    assert (sp' = sp) as -> by congruence. rewrite Hloc, Hid, Hrsz in Hdisk.
    intros other data'. rewrite Hdb, add_file_get, Hdisk. case_decide as Hother.
    + intros [= <-]. subst other. split; [done|]. simpl. apply lookup_insert_eq.
    + intros Hget. destruct (Hstored _ _ Hget) as [Hrel Hfile]. split; [done|].
      rewrite lookup_insert_ne; [done|]. intros Heq. by apply (Hapart other data').
  - pose proof (upload_file_raised_disk _ _ _ _ _ _ _ Hup Hsel) as [Hframe _].
    apply upload_file_raised in Hup as Hdb. intros other data'. rewrite Hdb.
    intros Hget. destruct (Hstored _ _ Hget) as [Hrel Hfile]. split; [done|].
    rewrite Hframe; [done|]. by apply Hapart.
Qed.

Lemma stored_after_removal fault file_id data w :
  store_kept (db w) → records_stored w →
  get_file (db w) file_id = Some data →
  records_stored
    {| db := (delete_file (db w) file_id).2;
       disk := remove_quietly fault (os_path_join (fd_storage_path data) file_id)
                 (disk w) |}.
Proof.
  intros (Hc & Hsound & _) Hstored Hget other data'. simpl.
  destruct (decide (file_id = other)) as [<-|Hne].
  { by rewrite delete_file_get by apply Hc. }
  rewrite delete_file_get_ne by done. intros Hget'.
  destruct (Hstored _ _ Hget') as [Hrel' Hfile']. split; [done|].
  rewrite remove_quietly_other; [done|]. intros Heq.
  destruct (Hstored _ _ Hget) as [Hrel _].
  destruct (Hsound _ _ Hget) as (_ & Hsp & _).
  destruct (Hsound _ _ Hget') as (_ & Hsp' & _).
  apply os_path_join_injective in Heq as [_ ->]; done.
Qed.

Lemma cleanup_loop_stored faults ids : ∀ w,
  store_kept (db w) → records_stored w →
  records_stored (foldl (cleanup_one faults) w ids).
Proof.
  induction ids as [|i ids IH]; intros w Hkept Hstored; simpl; [done|].
  apply IH.
  - rewrite cleanup_one_db. by apply delete_file_store_kept.
  - unfold cleanup_one. destruct (get_file (db w) i) as [data|] eqn:Hget; [|done].
    by apply stored_after_removal.
Qed.

Lemma reachable_with_names_stored w : reachable_with_names w → records_stored w.
Proof.
  induction 1 as [|env file expires_in w Hw IH Hfresh Hname|fault file_id w Hw IH
                  |now faults w Hw IH].
  - by intros file_id data.
  - apply stored_after_upload; [|done..].
    by apply reachable_store_kept, reachable_with_names_reachable.
  - unfold delete_file_handler.
    destruct (get_file (db w) file_id) as [data|] eqn:Hget; [|done]. simpl.
    apply stored_after_removal; [|done..].
    by apply reachable_store_kept, reachable_with_names_reachable.
  - apply cleanup_loop_stored; [|done].
    by apply reachable_store_kept, reachable_with_names_reachable.
Qed.

(** X15.  As long as the files change through the handlers only and the
    handles are names (they do not begin with a slash), every record has
    its file: the path volume/handle holds a file of exactly the recorded
    size.  So a download of a record is never answered 404 "File not found
    in storage": it is answered 410 or with the file. *)
Theorem records_have_their_files w file_id data now :
  reachable_with_names w →
  get_file (db w) file_id = Some data →
  disk w !! os_path_join (fd_storage_path data) file_id = Some (fd_size data) ∧
  download_file now file_id w =
    (if decide (fd_expires_at data < now) then Raise gone
     else Return {| fr_path := os_path_join (fd_storage_path data) file_id;
                    fr_filename := fd_original_name data;
                    fr_media_type := fd_content_type data |}).
Proof.
  intros Hreach Hget. apply reachable_with_names_stored in Hreach.
  destruct (Hreach _ _ Hget) as [_ Hfile]. split; [done|].
  unfold download_file. rewrite Hget. case_decide; [done|].
  unfold os_path_exists. rewrite Hfile. by rewrite bool_decide_eq_true_2 by by eexists.
Qed.

Lemma world_after_sweep_with_names :
  reachable_with_names (cleanup_expired_files at_12_00_00 (λ _, refused) world_2).
Proof.
  apply with_names_cleanup. apply with_names_upload; [|reflexivity..].
  apply with_names_upload; [|reflexivity..]. apply with_names_initial.
Defined.

Lemma records_have_their_files_witness :
  let w := cleanup_expired_files at_12_00_00 (λ _, refused) world_2 in
  reachable_with_names w ∧
  get_file (db w) "f-0001"
    = Some (new_record first_upload report_txt "/storage" next_day_07_05_00 8202) ∧
  disk w !! "/storage/f-0001" = Some 8202%N ∧
  download_file at_12_00_00 "f-0001" w =
    Return {| fr_path := "/storage/f-0001";
              fr_filename := Some "report.txt";
              fr_media_type := Some "text/plain" |}.
Proof.
  intros w.
  destruct (records_have_their_files w "f-0001"
              (new_record first_upload report_txt "/storage" next_day_07_05_00 8202)
              at_12_00_00 world_after_sweep_with_names eq_refl) as [Hfile Hdownload].
  split; [exact world_after_sweep_with_names|]. split; [reflexivity|].
  split; [exact Hfile | exact Hdownload].
Defined.

(** ** Stored timestamps *)

(** X16.  Comparing two stored timestamps as strings, as the sweep does
    with [data["expires_at"] < now], gives the order of the instants: for
    two [datetime] objects, the [isoformat()] string of the first is less
    than that of the second exactly when the first instant is the earlier
    one, and the two strings are equal exactly for equal instants; and the
    instants of all [datetime] objects lie between year 1 and the end of
    year 9999. *)
Theorem stored_timestamps_order a b :
  valid_datetime a → valid_datetime b →
  (String.ltb (isoformat a) (isoformat b) = true ↔ since_min a < since_min b) ∧
  (isoformat a = isoformat b ↔ since_min a = since_min b) ∧
  0 ≤ since_min a ≤ DATETIME_MAX.
Proof.
  intros Ha Hb. pose proof (isoformat_order a b Ha Hb) as Horder.
  split; [|split; [|by apply since_min_range]].
  - unfold String.ltb. rewrite Horder. unfold Z.lt.
    destruct (since_min a ?= since_min b); split; congruence.
  - rewrite <- Z.compare_eq_iff, <- Horder. split.
    + intros ->. rewrite (isoformat_order b b Hb Hb). apply Z.compare_refl.
    + apply String.compare_eq_iff.
Qed.

Lemma sample_datetimes_valid : valid_datetime nine_sharp ∧ valid_datetime half_past_noon.
Proof. by vm_compute. Defined.

Lemma stored_timestamps_order_witness :
  valid_datetime nine_sharp ∧ valid_datetime half_past_noon ∧
  isoformat nine_sharp = "2024-03-09T09:00:00" ∧
  isoformat half_past_noon = "2024-03-09T12:30:15.250000" ∧
  (String.ltb (isoformat nine_sharp) (isoformat half_past_noon) = true ↔
   since_min nine_sharp < since_min half_past_noon) ∧
  (isoformat nine_sharp = isoformat half_past_noon ↔
   since_min nine_sharp = since_min half_past_noon) ∧
  0 ≤ since_min nine_sharp ≤ DATETIME_MAX.
Proof.
  split; [exact (proj1 sample_datetimes_valid)|].
  split; [exact (proj2 sample_datetimes_valid)|].
  split; [reflexivity|]. split; [reflexivity|].
  exact (stored_timestamps_order nine_sharp half_past_noon
           (proj1 sample_datetimes_valid) (proj2 sample_datetimes_valid)).
Defined.

(** ** Operations that undo or absorb one another *)

Lemma store_kept_stats_lookup d v :
  store_kept d →
  stats d !! v = (if decide (0 < count_on v (files d))
                  then Some (count_on v (files d)) else None).
Proof.
  intros ([_ Hcnt] & _ & Hpos & _). specialize (Hcnt v). unfold stats_get in Hcnt.
  destruct (stats d !! v) as [n|] eqn:Hn; simpl in Hcnt.
  - apply Hpos in Hn as [Hn _]. rewrite <- Hcnt. by rewrite decide_True by lia.
  - rewrite <- Hcnt. by rewrite decide_False by lia.
Qed.

(** Two kept stores with the same records are the same store. *)
Lemma store_kept_determined d d' :
  store_kept d → store_kept d' → files d = files d' → d = d'.
Proof.
  intros Hd Hd' Hfiles. destruct d as [fl st], d' as [fl' st']. simpl in Hfiles.
  subst fl'. f_equal. apply map_eq. intros v.
  pose proof (store_kept_stats_lookup _ v Hd) as Hv.
  pose proof (store_kept_stats_lookup _ v Hd') as Hv'. simpl in Hv, Hv'. congruence.
Qed.

Lemma filter_filter_absorb {A} (P Q : A → bool) (l : list A) :
  (∀ x, Q x = true → P x = true) →
  List.filter (λ x, negb (P x)) (List.filter (λ x, negb (Q x)) l)
  = List.filter (λ x, negb (P x)) l.
Proof.
  intros HQP. induction l as [|x l IH]; simpl; [done|].
  destruct (Q x) eqn:HQ; simpl.
  - by rewrite (HQP x HQ).
  - destruct (P x); simpl; by rewrite IH.
Qed.

(** X17.  A later sweep absorbs an earlier one: sweeping at an instant and
    then at a later one leaves the same store, records and counters, as
    sweeping at the later instant alone. *)
Theorem later_sweep_absorbs_earlier now now' faults faults' faults'' w :
  reachable w →
  now ≤ now' →
  db (cleanup_expired_files now' faults' (cleanup_expired_files now faults w))
  = db (cleanup_expired_files now' faults'' w).
Proof.
  intros Hreach Hnow. apply reachable_store_kept in Hreach as Hkept.
  pose proof (cleanup_loop_store_kept faults (get_expired_files (db w) now) w Hkept)
    as Hkept1.
  fold (cleanup_expired_files now faults w) in Hkept1.
  set (w1 := cleanup_expired_files now faults w) in *.
  apply store_kept_determined.
  - by apply cleanup_loop_store_kept.
  - by apply cleanup_loop_store_kept.
  - destruct (cleanup_expired_files_db now' faults' w1 (proj1 Hkept1)) as [-> _].
    destruct (cleanup_expired_files_db now' faults'' w (proj1 Hkept)) as [-> _].
    destruct (cleanup_expired_files_db now faults w (proj1 Hkept)) as [Hfiles _].
    fold w1 in Hfiles. rewrite Hfiles.
    apply (filter_filter_absorb (λ kv, is_expired now' kv.2) (λ kv, is_expired now kv.2)).
    intros kv. unfold is_expired. rewrite !bool_decide_eq_true. lia.
Qed.

Lemma later_sweep_absorbs_earlier_witness :
  let quiet : string → os_fault := λ _, None in
  reachable world_2 ∧ at_09_00_00 ≤ at_12_00_00 ∧
  db (cleanup_expired_files at_12_00_00 quiet
        (cleanup_expired_files at_09_00_00 quiet world_2))
  = db (cleanup_expired_files at_12_00_00 (λ _, refused) world_2).
Proof.
  intros quiet.
  assert (at_09_00_00 ≤ at_12_00_00) as Hnow by (by vm_compute).
  split; [exact world_2_reachable|]. split; [exact Hnow|].
  exact (later_sweep_absorbs_earlier at_09_00_00 at_12_00_00 quiet quiet
           (λ _, refused) world_2 world_2_reachable Hnow).
Defined.

Lemma dict_del_last {V} (d : list (string * V)) k v :
  dict_get d k = None → dict_del (d ++ [(k, v)]) k = d.
Proof.
  induction d as [|[k' v'] r IH]; simpl.
  - intros _. by rewrite decide_True.
  - case_decide; [done|]. intros Hget. by rewrite IH.
Qed.

(** X18.  Deleting an object right after its upload undoes the upload: when
    the handle is fresh, its path held no file and the system does not
    refuse the removal, the world after the deletion is the world before
    the upload, records, counters and volumes alike. *)
Theorem upload_then_delete_restores env file expires_in w r w' :
  reachable w →
  get_file (db w) (uuid4 env) = None →
  upload_file env file expires_in w = (Return r, w') →
  disk w !! os_path_join (ur_storage_location r) (ur_id r) = None →
  delete_file_handler None (ur_id r) w' =
    (Return {| dr_status := "deleted"; dr_id := ur_id r |}, w).
Proof.
  intros Hreach Hfresh Hup Hempty. apply reachable_store_kept in Hreach as Hkept.
  pose proof (upload_file_store_kept env file expires_in w Hfresh Hkept) as Hkept'.
  pose proof (upload_file_created_disk _ _ _ _ _ _ Hup) as (_ & _ & Hdisk).
  rewrite Hup in Hkept'. simpl in Hkept'.
  apply upload_file_created in Hup
    as (sp & ex & dsk & sz & _ & _ & _ & _ & _ & Hdb & Hid & Hloc & _).
  assert (get_file (db w') (ur_id r) = Some (new_record env file sp ex sz)) as Hget.
  { rewrite Hdb, Hid. unfold get_file. simpl. by rewrite dict_get_set_eq. }
  unfold delete_file_handler. rewrite Hget. simpl. f_equal.
  destruct w as [d dsk0], w' as [d' dsk']. simpl in *. f_equal.
  - apply store_kept_determined; [by apply delete_file_store_kept | done |].
    rewrite delete_file_files, Hdb, Hid. simpl.
    rewrite dict_set_fresh by done. by apply dict_del_last.
  - rewrite <- Hloc. unfold remove_quietly, os_remove. rewrite Hdisk.
    rewrite lookup_insert_eq, delete_insert_eq. by apply delete_id.
Qed.

Lemma upload_then_delete_restores_witness :
  reachable world_1 ∧
  get_file (db world_1) "f-0002" = None ∧
  upload_file second_upload report_txt 3600 world_1 = (Return second_response, world_2) ∧
  disk world_1 !! "/storage2/f-0002" = None ∧
  delete_file_handler None "f-0002" world_2 =
    (Return {| dr_status := "deleted"; dr_id := "f-0002" |}, world_1).
Proof.
  assert (reachable world_1) as Hreach.
  { eapply reachable_step; [apply reachable_initial|].
    apply (step_upload first_upload report_txt DEFAULT_EXPIRY). reflexivity. }
  split; [exact Hreach|]. split; [reflexivity|]. split; [exact second_upload_answer|].
  split; [reflexivity|].
  exact (upload_then_delete_restores second_upload report_txt 3600 world_1
           second_response world_2 Hreach eq_refl second_upload_answer eq_refl).
Defined.
